(** * Audio timeline editor: time axis, ruler, gap/drag controller, start-up load

    A shallow embedding of the timeline component family
    (TimelineRuler, useTimelineDrag, AudioTimeline) together with the
    properties stated about them.

    Numbers.  A JavaScript [number] is modelled as an exact rational in
    canonical form ([Qc]), so that [=] on numbers is Leibniz equality and
    arithmetic is the arithmetic the source text writes down.  Rounding
    error, infinities and NaN are outside the model: every theorem that
    divides by a variable is stated for a positive divisor, and the
    concrete inputs used below are small integers and short decimals on
    which the double computation gives the same result.  Results of
    [Math.floor] / [Math.ceil] are kept as [Z] and injected back with
    [int] where the source uses them as numbers.

    Browser.  Only what the sources touch is modelled: the bounding
    rectangle and scroll offset of the scroll container, the two document
    listeners, the queue of animation-frame requests, and promises by the
    way they settle. *)

From Stdlib Require Import QArith Qcanon Qround ZArith Lia Lqa Sorted Ascii.
From stdpp Require Import base list strings numbers pretty relations.

Local Open Scope Qc_scope.

(** ** JavaScript primitives used by the sources *)

Module JS.

Definition number : Type := Qc.

(** Integer literal. *)
Definition int (z : Z) : number := Qc_of_Z z.
(** Literal [n/d] (used for [0.5] and in examples such as [125.9]). *)
Definition frac (n : Z) (d : positive) : number := Q2Qc (n # d).

Definition Math_floor (x : number) : Z := Qfloor x.
Definition Math_ceil (x : number) : Z := Qceiling x.

(** [Math.max(a, b)]. *)
Definition Math_max (a b : number) : number :=
  if decide (a < b) then b else a.

(** Truncation toward zero, the rounding behind the [%] operator. *)
Definition trunc (x : number) : Z :=
  if decide (0 ≤ x) then Qfloor x else Qceiling x.

(** [a % b]: remainder with the sign of the dividend. *)
Definition rem (a b : number) : number := a - b * int (trunc (a / b)).

(** [n.toString()] for an integral number: positional decimal digits,
    with a leading minus sign for negatives (what JavaScript prints for
    integers of magnitude below 1e21). *)
Definition toString (n : Z) : string := pretty n.

Fixpoint repeat_string (n : nat) (s : string) : string :=
  match n with
  | O => ""
  | S k => s +:+ repeat_string k s
  end.

(** [s.padStart(targetLength, padString)]. *)
Definition padStart (targetLength : nat) (padString s : string) : string :=
  let len := String.length s in
  if decide (targetLength ≤ len)%nat then s
  else if decide (padString = "") then s
  else
    let fillLen := (targetLength - len)%nat in
    String.substring 0 fillLen (repeat_string fillLen padString) +:+ s.

(** [xs.findIndex(p)]: index of the first element satisfying [p], or -1. *)
Fixpoint findIndex_from {A} (p : A → bool) (xs : list A) (i : Z) : Z :=
  match xs with
  | [] => (-1)%Z
  | x :: rest => if p x then i else findIndex_from p rest (i + 1)%Z
  end.
Definition findIndex {A} (p : A → bool) (xs : list A) : Z :=
  findIndex_from p xs 0%Z.

(** Settled state of a promise, abstracting from the time at which it
    settles; [Pending] is a promise that never settles. *)
Inductive Promise (A : Type) : Type :=
| Fulfilled (a : A)
| Rejected
| Pending.
Arguments Fulfilled {A} a.
Arguments Rejected {A}.
Arguments Pending {A}.

(** [Promise.all]: rejected as soon as one input is rejected, fulfilled
    with all values (in input order) when every input is fulfilled, and
    pending otherwise. *)
Fixpoint all_values {A} (ps : list (Promise A)) : option (list A) :=
  match ps with
  | [] => Some []
  | Fulfilled a :: rest => cons a <$> all_values rest
  | _ :: _ => None
  end.
Definition is_rejected {A} (p : Promise A) : bool :=
  match p with Rejected => true | _ => false end.
Definition Promise_all {A} (ps : list (Promise A)) : Promise (list A) :=
  if existsb is_rejected ps then Rejected
  else match all_values ps with
       | Some vs => Fulfilled vs
       | None => Pending
       end.

End JS.
Import JS.

(** ** types.ts *)

(** A single audio chunk in the timeline. *)
Record AudioChunkData : Type := mkChunk {
  id : string;
  label : string;
  audioUrl : string;
  durationSeconds : number;
  gapBefore : number;
}.

(** The active drag operation. *)
Record DragState : Type := mkDrag {
  chunkId : string;
  startMouseX : number;
  initialGapBefore : number;
}.

Definition DEFAULT_PIXELS_PER_SECOND : number := int 50.
Definition MIN_PIXELS_PER_SECOND : number := int 20.
Definition MAX_PIXELS_PER_SECOND : number := int 150.

Global Instance AudioChunkData_eq_dec : EqDecision AudioChunkData.
Proof. solve_decision. Defined.
Global Instance DragState_eq_dec : EqDecision DragState.
Proof. solve_decision. Defined.

(** ** TimelineRuler *)

Module TimelineRuler.

(** [formatTime(seconds)]. *)
Definition formatTime (seconds : number) : string :=
  let mins := Math_floor (seconds / int 60) in
  let secs := Math_floor (rem seconds (int 60)) in
  toString mins +:+ ":" +:+ padStart 2 "0" (toString secs).

(** Number of extra tick intervals to show beyond the content. *)
Definition EXTRA_TICKS : number := int 3.

Definition candidates : list number :=
  [frac 1 2; int 1; int 2; int 5; int 10; int 15; int 30; int 60;
   int 120; int 300].

(** The [for (const c of candidates)] loop of [chooseTickInterval]:
    the first candidate that passes the test, if any. *)
Fixpoint firstFit (cs : list number) (pixelsPerSecond minPixelGap : number)
  : option number :=
  match cs with
  | [] => None
  | c :: rest =>
      if decide (minPixelGap ≤ c * pixelsPerSecond) then Some c
      else firstFit rest pixelsPerSecond minPixelGap
  end.

Definition chooseTickIntervalFrom (cs : list number)
    (pixelsPerSecond minPixelGap : number) : number :=
  match firstFit cs pixelsPerSecond minPixelGap with
  | Some c => c
  | None => default 0 (cs !! (length cs - 1)%nat)
  end.

(** [chooseTickInterval(pixelsPerSecond, minPixelGap = 60)]. *)
Definition chooseTickInterval (pixelsPerSecond : number)
    (minPixelGap : number) : number :=
  chooseTickIntervalFrom candidates pixelsPerSecond minPixelGap.
Definition defaultMinPixelGap : number := int 60.

(** [contentWidth]: the [reduce] over the chunks. *)
Definition contentWidth (chunks : list AudioChunkData)
    (pixelsPerSecond : number) : number :=
  foldl (λ sum c, sum + gapBefore c + durationSeconds c * pixelsPerSecond)
        0 chunks.

Record Tick : Type := mkTick {
  time : number;
  px : number;
  isMajor : bool;
}.

Global Instance Tick_eq_dec : EqDecision Tick.
Proof. solve_decision. Defined.

(** Body of the tick loop for one value of [t]. *)
Definition tickAt (pixelsPerSecond interval t : number) : Tick :=
  let px := t * pixelsPerSecond in
  let isMajor :=
    bool_decide (t = 0) || bool_decide (rem t (interval * int 2) = 0) in
  mkTick t px isMajor.

(** [for (let t = 0; t <= extendedSeconds; t += interval)], started at
    [t]; [None] when the fuel is used up before the loop condition
    fails. *)
Fixpoint tickLoop (fuel : nat) (pixelsPerSecond interval extendedSeconds
    t : number) : option (list Tick) :=
  match fuel with
  | O => None
  | S fuel' =>
      if decide (t ≤ extendedSeconds) then
        cons (tickAt pixelsPerSecond interval t)
          <$> tickLoop fuel' pixelsPerSecond interval extendedSeconds
                (t + interval)
      else Some []
  end.

Definition contentSeconds (chunks : list AudioChunkData)
    (pixelsPerSecond : number) : number :=
  contentWidth chunks pixelsPerSecond / pixelsPerSecond.

Definition extendedSeconds (chunks : list AudioChunkData)
    (pixelsPerSecond : number) : number :=
  contentSeconds chunks pixelsPerSecond
  + chooseTickInterval pixelsPerSecond defaultMinPixelGap * EXTRA_TICKS.

Definition extendedWidth (chunks : list AudioChunkData)
    (pixelsPerSecond : number) : number :=
  extendedSeconds chunks pixelsPerSecond * pixelsPerSecond.

Record RulerMemo : Type := mkRuler {
  ticks : list Tick;
  rulerWidth : number;
}.

(** The second [useMemo] of the component: the tick list and the width
    given to the ruler element. *)
Definition rulerMemo (fuel : nat) (chunks : list AudioChunkData)
    (pixelsPerSecond : number) : option RulerMemo :=
  let interval := chooseTickInterval pixelsPerSecond defaultMinPixelGap in
  result ← tickLoop fuel pixelsPerSecond interval
              (extendedSeconds chunks pixelsPerSecond) 0;
  Some (mkRuler result (extendedWidth chunks pixelsPerSecond)).

End TimelineRuler.
Import TimelineRuler.

(** ** useTimelineDrag *)

Module TimelineDrag.

(** How close to the edge (px) the mouse must be to trigger auto-scroll. *)
Definition EDGE_THRESHOLD : number := int 80.
(** Max scroll speed in pixels per animation frame. *)
Definition SCROLL_SPEED : number := int 12.

(** The element behind [scrollContainerRef]: the two sides of its
    bounding rectangle and its scroll offset.  Assigning [scrollLeft] is
    modelled as a plain field update; the clamping a browser applies to
    the assigned value is not part of the sources. *)
Record Container : Type := mkContainer {
  rect_left : number;
  rect_right : number;
  scrollLeft : number;
}.

Record MouseEvent : Type := mkMouseEvent {
  button : Z;
  clientX : number;
}.

(** Everything the hook reads or writes: the chunk list it is handed
    (with its setter), its own React state, its refs, and the part of the
    browser it talks to (document listeners, animation-frame requests). *)
Record State : Type := mkState {
  chunks : list AudioChunkData;
  dragState : option DragState;
  dragRef : option DragState;
  scrollRafRef : option nat;
  mouseXRef : number;
  scrollContainer : option Container;
  mousemoveListener : bool;
  mouseupListener : bool;
  frameRequests : list nat;
  nextFrameId : nat;
}.

Global Instance Container_eq_dec : EqDecision Container.
Proof. solve_decision. Defined.
Global Instance State_eq_dec : EqDecision State.
Proof. solve_decision. Defined.

Definition set_chunks (v : list AudioChunkData) (s : State) : State :=
  mkState v (dragState s) (dragRef s) (scrollRafRef s) (mouseXRef s)
    (scrollContainer s) (mousemoveListener s) (mouseupListener s)
    (frameRequests s) (nextFrameId s).
Definition set_dragState (v : option DragState) (s : State) : State :=
  mkState (chunks s) v (dragRef s) (scrollRafRef s) (mouseXRef s)
    (scrollContainer s) (mousemoveListener s) (mouseupListener s)
    (frameRequests s) (nextFrameId s).
Definition set_dragRef (v : option DragState) (s : State) : State :=
  mkState (chunks s) (dragState s) v (scrollRafRef s) (mouseXRef s)
    (scrollContainer s) (mousemoveListener s) (mouseupListener s)
    (frameRequests s) (nextFrameId s).
Definition set_scrollRafRef (v : option nat) (s : State) : State :=
  mkState (chunks s) (dragState s) (dragRef s) v (mouseXRef s)
    (scrollContainer s) (mousemoveListener s) (mouseupListener s)
    (frameRequests s) (nextFrameId s).
Definition set_mouseXRef (v : number) (s : State) : State :=
  mkState (chunks s) (dragState s) (dragRef s) (scrollRafRef s) v
    (scrollContainer s) (mousemoveListener s) (mouseupListener s)
    (frameRequests s) (nextFrameId s).
Definition set_scrollContainer (v : option Container) (s : State) : State :=
  mkState (chunks s) (dragState s) (dragRef s) (scrollRafRef s)
    (mouseXRef s) v (mousemoveListener s) (mouseupListener s)
    (frameRequests s) (nextFrameId s).
Definition set_mousemoveListener (v : bool) (s : State) : State :=
  mkState (chunks s) (dragState s) (dragRef s) (scrollRafRef s)
    (mouseXRef s) (scrollContainer s) v (mouseupListener s)
    (frameRequests s) (nextFrameId s).
Definition set_mouseupListener (v : bool) (s : State) : State :=
  mkState (chunks s) (dragState s) (dragRef s) (scrollRafRef s)
    (mouseXRef s) (scrollContainer s) (mousemoveListener s) v
    (frameRequests s) (nextFrameId s).
Definition set_frameRequests (v : list nat) (s : State) : State :=
  mkState (chunks s) (dragState s) (dragRef s) (scrollRafRef s)
    (mouseXRef s) (scrollContainer s) (mousemoveListener s)
    (mouseupListener s) v (nextFrameId s).
Definition set_nextFrameId (v : nat) (s : State) : State :=
  mkState (chunks s) (dragState s) (dragRef s) (scrollRafRef s)
    (mouseXRef s) (scrollContainer s) (mousemoveListener s)
    (mouseupListener s) (frameRequests s) v.

Definition set_scrollLeft (v : number) (c : Container) : Container :=
  mkContainer (rect_left c) (rect_right c) v.

(** [requestAnimationFrame(cb)]: queue a request, return its handle.
    Every request of this hook carries the same callback,
    [() => autoScrollFnRef.current()]. *)
Definition requestAnimationFrame (s : State) : nat * State :=
  let handle := nextFrameId s in
  (handle,
   set_nextFrameId (S handle)
     (set_frameRequests (frameRequests s ++ [handle]) s)).

(** [cancelAnimationFrame(handle)]. *)
Definition cancelAnimationFrame (handle : nat) (s : State) : State :=
  set_frameRequests
    (filter (λ h, h ≠ handle) (frameRequests s)) s.

Definition stopAutoScroll (s : State) : State :=
  match scrollRafRef s with
  | Some handle => set_scrollRafRef None (cancelAnimationFrame handle s)
  | None => s
  end.

Definition startAutoScroll (s : State) : State :=
  match scrollRafRef s with
  | None =>
      let '(handle, s') := requestAnimationFrame s in
      set_scrollRafRef (Some handle) s'
  | Some _ => s
  end.

(** [autoScrollFnRef.current]. *)
Definition autoScrollFn (s : State) : State :=
  match scrollContainer s, dragRef s with
  | Some container, Some _ =>
      let mouseX := mouseXRef s in
      let distFromRight := rect_right container - mouseX in
      let distFromLeft := mouseX - rect_left container in
      let container' :=
        if decide (distFromRight < EDGE_THRESHOLD ∧ 0 < distFromRight) then
          let intensity := 1 - distFromRight / EDGE_THRESHOLD in
          set_scrollLeft
            (scrollLeft container
             + int (Math_ceil (SCROLL_SPEED * intensity))) container
        else if decide (distFromLeft < EDGE_THRESHOLD ∧ 0 < distFromLeft)
        then
          let intensity := 1 - distFromLeft / EDGE_THRESHOLD in
          set_scrollLeft
            (scrollLeft container
             - int (Math_ceil (SCROLL_SPEED * intensity))) container
        else container in
      let '(handle, s') :=
        requestAnimationFrame (set_scrollContainer (Some container') s) in
      set_scrollRafRef (Some handle) s'
  | _, _ => s
  end.

(** [handleMouseMoveRef.current]. *)
Definition handleMouseMove (e_clientX : number) (s : State) : State :=
  match dragRef s with
  | None => s
  | Some drag =>
      let deltaX := e_clientX - startMouseX drag in
      let newGap := Math_max 0 (initialGapBefore drag + deltaX) in
      set_chunks
        (map (λ c,
                if decide (id c = chunkId drag)
                then mkChunk (id c) (label c) (audioUrl c)
                             (durationSeconds c) newGap
                else c)
             (chunks s))
        (set_mouseXRef e_clientX s)
  end.

(** [handleMouseUpRef.current]. *)
Definition handleMouseUp (s : State) : State :=
  set_mouseupListener false
    (set_mousemoveListener false
       (stopAutoScroll (set_dragState None (set_dragRef None s)))).

(** Result of running a handler: it returns (having called
    [e.preventDefault()] or not), or a [TypeError] escapes. *)
Inductive Outcome : Type :=
| Returned (defaultPrevented : bool) (s : State)
| Threw.

(** [onChunkMouseDown(chunkId, e)]. *)
Definition onChunkMouseDown (chunkId : string) (e : MouseEvent)
    (s : State) : Outcome :=
  if decide (button e ≠ 0%Z) then Returned false s
  else
    let chunkIndex :=
      findIndex (λ c, bool_decide (id c = chunkId)) (chunks s) in
    if decide (chunkIndex < 0)%Z then Returned true s
    else if decide (chunkIndex = 0%Z) then Returned true s
    else
      match chunks s !! Z.to_nat chunkIndex with
      | None => Threw
      | Some chunk =>
          let state := mkDrag chunkId (clientX e) (gapBefore chunk) in
          let s1 := set_dragRef (Some state) s in
          let s2 := set_mouseXRef (clientX e) s1 in
          let s3 := set_dragState (Some state) s2 in
          let s4 := startAutoScroll s3 in
          Returned true
            (set_mouseupListener true (set_mousemoveListener true s4))
      end.

(** The browser runs the oldest pending animation-frame request. *)
Definition runFrame (s : State) : State :=
  match frameRequests s with
  | [] => s
  | _ :: rest => autoScrollFn (set_frameRequests rest s)
  end.

(** No drag session: nothing held in the ref or the React state, no
    document listeners, no animation frame requested. *)
Definition Idle (s : State) : Prop :=
  dragRef s = None ∧ dragState s = None
  ∧ mousemoveListener s = false ∧ mouseupListener s = false
  ∧ scrollRafRef s = None.

End TimelineDrag.
Import TimelineDrag.

(** ** AudioTimeline *)

Module AudioTimeline.

(** [Omit<AudioChunkData, "durationSeconds">]. *)
Record ChunkSource : Type := mkSource {
  src_id : string;
  src_label : string;
  src_audioUrl : string;
  src_gapBefore : number;
}.

(** [{ ...c, durationSeconds: dur }]. *)
Definition withDuration (dur : number) (c : ChunkSource) : AudioChunkData :=
  mkChunk (src_id c) (src_label c) (src_audioUrl c) dur (src_gapBefore c).

(** What the asynchronous body of the mount effect does once it
    resumes, in order. *)
Inductive Effect : Type :=
| ConsoleError (msg : string)
| SetChunks (value : list AudioChunkData)
| SetLoading (value : bool).

Definition isSetLoading (e : Effect) : bool :=
  match e with SetLoading _ => true | _ => false end.

Record App : Type := mkApp {
  drag : State;
  pixelsPerSecond : number;
  loading : bool;
}.

Definition with_drag (s : State) (app : App) : App :=
  mkApp s (pixelsPerSecond app) (loading app).

Definition applyEffect (app : App) (e : Effect) : App :=
  match e with
  | ConsoleError _ => app
  | SetChunks value => with_drag (set_chunks value (drag app)) app
  | SetLoading value => mkApp (drag app) (pixelsPerSecond app) value
  end.

Definition runEffects (es : list Effect) (app : App) : App :=
  foldl applyEffect app es.

(** [isDragging={dragState?.chunkId === chunk.id}]: whether a chunk card
    is drawn as being dragged. *)
Definition isDragging (dragState : option DragState) (chunk : AudioChunkData)
  : bool :=
  match dragState with
  | Some session => bool_decide (chunkId session = id chunk)
  | None => false
  end.


(** [TimelineGap]: nothing is rendered for a width of 0 or less. *)
Definition TimelineGap_width (width : number) : number :=
  if decide (width ≤ 0) then 0 else width.

(** [AudioChunk]: the card has [width = durationSeconds * pixelsPerSecond]
    and [minWidth = 60px]. *)
Definition AudioChunk_width (chunk : AudioChunkData)
    (pixelsPerSecond : number) : number :=
  Math_max (durationSeconds chunk * pixelsPerSecond) (int 60).

(** The chunks row: [chunks.map((chunk, i) => ...)], a gap spacer for
    [i > 0] followed by the card, laid out side by side without
    shrinking; the width of the items from index [i] on. *)
Fixpoint rowWidthFrom (i : nat) (chunks : list AudioChunkData)
    (pixelsPerSecond : number) : number :=
  match chunks with
  | [] => 0
  | chunk :: rest =>
      (if decide (0 < i)%nat then TimelineGap_width (gapBefore chunk) else 0)
      + AudioChunk_width chunk pixelsPerSecond
      + rowWidthFrom (S i) rest pixelsPerSecond
  end.
Definition renderedRowWidth (chunks : list AudioChunkData)
    (pixelsPerSecond : number) : number :=
  rowWidthFrom 0 chunks pixelsPerSecond.

(** State after the first render. *)
Definition mounted : App :=
  mkApp (mkState [] None None None 0 None false false [] 1)
        DEFAULT_PIXELS_PER_SECOND true.

(** The wheel listener of the scroll container. *)
Definition onWheel (deltaY : number) (el : Container) : Container :=
  if decide (deltaY = 0) then el
  else set_scrollLeft (scrollLeft el + deltaY) el.

Section Environment.

(** [GLOBALS.BASE_URL], imported from a module outside the sources. *)
Variable BASE_URL : string.
(** [loadAudioDuration(url)], as the promise it returns settles. *)
Variable loadAudioDuration : string → Promise number.

Definition DEMO_CHUNKS : list ChunkSource :=
  [mkSource "a" "Arrow" (BASE_URL +:+ "/sounds/arrow.mp3") 0;
   mkSource "b" "Clash Royale" (BASE_URL +:+ "/sounds/clashRoyale.mp3") 0;
   mkSource "c" "Goblins" (BASE_URL +:+ "/sounds/goblins.mp3") 0;
   mkSource "d" "Mini Pekka" (BASE_URL +:+ "/sounds/miniPekka.mp3") 0;
   mkSource "e" "Rocket" (BASE_URL +:+ "/sounds/rocket.mp3") 0].

(** The [async (c) => ...] mapped over [DEMO_CHUNKS]. *)
Definition loadOne (c : ChunkSource) : Promise AudioChunkData :=
  match loadAudioDuration (src_audioUrl c) with
  | Fulfilled dur => Fulfilled (withDuration dur c)
  | Rejected => Rejected
  | Pending => Pending
  end.

(** The [try]/[catch] of the mount effect; [cancelled] is the flag as
    read when the body resumes.  [None]: the body never resumes. *)
Definition loadDurations (cancelled : bool) : option (list Effect) :=
  match Promise_all (map loadOne DEMO_CHUNKS) with
  | Fulfilled loaded =>
      Some (if cancelled then []
            else [SetChunks loaded; SetLoading false])
  | Rejected =>
      Some (ConsoleError "Error loading audio durations:"
            :: if cancelled then []
               else [SetChunks (map (withDuration (int 5)) DEMO_CHUNKS);
                     SetLoading false])
  | Pending => None
  end.

(** One event of the mounted component. *)
Inductive step : App → App → Prop :=
| step_load app es :
    loading app = true →
    loadDurations false = Some es →
    step app (runEffects es app)
| step_mouseDown app chunkId e prevented s' :
    onChunkMouseDown chunkId e (drag app) = Returned prevented s' →
    step app (with_drag s' app)
| step_mouseMove app x :
    mousemoveListener (drag app) = true →
    step app (with_drag (handleMouseMove x (drag app)) app)
| step_mouseUp app :
    mouseupListener (drag app) = true →
    step app (with_drag (handleMouseUp (drag app)) app)
| step_frame app :
    step app (with_drag (runFrame (drag app)) app)
| step_zoom app value :
    MIN_PIXELS_PER_SECOND ≤ value ≤ MAX_PIXELS_PER_SECOND →
    step app (mkApp (drag app) value (loading app))
| step_wheel app el deltaY :
    scrollContainer (drag app) = Some el →
    step app
      (with_drag
         (set_scrollContainer (Some (onWheel deltaY el)) (drag app)) app)
| step_layout app el :
    loading app = false →
    step app (with_drag (set_scrollContainer (Some el) (drag app)) app).

Definition reachable (app : App) : Prop := rtc step mounted app.

End Environment.

End AudioTimeline.
Import AudioTimeline.

(** ** Sample data *)

(** Sample timeline: five chunks of two seconds each, no gaps. *)
Definition demo5 : list AudioChunkData :=
  [mkChunk "a" "A" "a.mp3" (int 2) 0; mkChunk "b" "B" "b.mp3" (int 2) 0;
   mkChunk "c" "C" "c.mp3" (int 2) 0; mkChunk "d" "D" "d.mp3" (int 2) 0;
   mkChunk "e" "E" "e.mp3" (int 2) 0].

(** Sample states of the drag hook over that timeline, with a scroll
    container spanning client x from 0 to 1000: no drag running; the second
    chunk grabbed at x = 300; the same drag with the pointer exactly on the
    right edge of the container. *)
Definition sampleContainer : Container := mkContainer 0 (int 1000) 0.
Definition sampleIdle : State :=
  mkState demo5 None None None 0 (Some sampleContainer) false false [] 1.
Definition sampleDrag : DragState := mkDrag "b" (int 300) 0.
Definition sampleDragging : State :=
  mkState demo5 (Some sampleDrag) (Some sampleDrag) (Some 1%nat) (int 300)
          (Some sampleContainer) true true [1%nat] 2.
Definition sampleAtEdge : State := set_mouseXRef (int 1000) sampleDragging.

(** A load environment in which the third file fails to load and every
    other file lasts three seconds. *)
Definition sampleFailingLoad (url : string) : Promise number :=
  if decide (url = "/sounds/goblins.mp3") then Rejected
  else Fulfilled (int 3).

(** A run of the component: every file loads with a duration of two
    seconds, the second chunk is grabbed at x = 300 and the pointer moves to
    x = 340. *)
Definition sampleLoad (url : string) : Promise number := Fulfilled (int 2).
Definition returnedState (o : Outcome) (s : State) : State :=
  match o with Returned _ s' => s' | Threw => s end.
Definition sampleLoaded : App :=
  runEffects
    [SetChunks (map (withDuration (int 2)) (DEMO_CHUNKS "")); SetLoading false]
    mounted.
Definition sampleGrabbed : App :=
  with_drag
    (returnedState
       (onChunkMouseDown "b" (mkMouseEvent 0 (int 300)) (drag sampleLoaded))
       (drag sampleLoaded))
    sampleLoaded.
Definition sampleMoved : App :=
  with_drag (handleMouseMove (int 340) (drag sampleGrabbed)) sampleGrabbed.

(** ** Invariant of the component *)

(** What stays true of the component after every event: while loading
    there are no chunks and no drag session; the first chunk has no gap
    before it and is never the chunk of the drag session. *)
Definition firstChunkFixed (app : App) : Prop :=
  (loading app = true →
     chunks (drag app) = [] ∧ dragRef (drag app) = None)
  ∧ ∀ first, head (chunks (drag app)) = Some first →
      gapBefore first = 0
      ∧ ∀ session, dragRef (drag app) = Some session →
          chunkId session ≠ id first.

(** ** Definitions that follow the wording of the specification

    They are compared below with the definitions taken from the sources. *)

(** A candidate interval leaves at least [minPixelGap] pixels between
    neighbouring ticks. *)
Definition fits (pixelsPerSecond minPixelGap c : number) : Prop :=
  minPixelGap ≤ c * pixelsPerSecond.

(** Total chunk-row width: the sum over the chunks of
    [gapBefore + durationSeconds * pixelsPerSecond]. *)
Definition specChunkRowWidth (chunks : list AudioChunkData)
    (pixelsPerSecond : number) : number :=
  foldr (λ c acc, (gapBefore c + durationSeconds c * pixelsPerSecond) + acc)
        0 chunks.

(** [x mod m] with the quotient rounded down. *)
Definition specMod (x m : number) : number :=
  x - m * int (Math_floor (x / m)).

(** The [k]-th tick: at time [k * interval], at pixel [time * pixelsPerSecond],
    major when the time is 0 or a multiple of twice the interval. *)
Definition specTick (pixelsPerSecond interval : number) (k : nat) : Tick :=
  let t := int (Z.of_nat k) * interval in
  mkTick t (t * pixelsPerSecond)
         (bool_decide (t = 0 ∨ specMod t (int 2 * interval) = 0)).

(** How many multiples [0, interval, 2 * interval, ...] do not exceed
    [limit]. *)
Definition tickCount (interval limit : number) : nat :=
  if decide (0 ≤ limit) then Z.to_nat (Math_floor (limit / interval) + 1)
  else 0%nat.

(** Auto-scroll ramp: [ceil(12 * (1 - d / 80))]. *)
Definition specRampSpeed (d : number) : Z :=
  Math_ceil (int 12 * (1 - d / int 80)).

(** A number below 100 written with exactly two decimal digits. *)
Definition digitChar (n : Z) : ascii := ascii_of_nat (48 + Z.to_nat n).
Definition specTwoDigits (n : Z) : string :=
  String (digitChar (n `div` 10)) (String (digitChar (n `mod` 10)) "").

(** [M:SS]: whole minutes unpadded, then the whole seconds left over in two
    digits. *)
Definition specFormatTimestamp (seconds : number) : string :=
  pretty (Math_floor (seconds / int 60))
  +:+ ":" +:+ specTwoDigits (Math_floor (specMod seconds (int 60))).

(** ** Further definitions for the properties of the remaining code *)

(** The state an accepted press leaves behind: the statements of
    [onChunkMouseDown] after its guards, for the chunk found. *)
Definition pressed (cid : string) (e : MouseEvent) (chunk : AudioChunkData)
    (s : State) : State :=
  let state := mkDrag cid (clientX e) (gapBefore chunk) in
  set_mouseupListener true
    (set_mousemoveListener true
       (startAutoScroll
          (set_dragState (Some state)
             (set_mouseXRef (clientX e) (set_dragRef (Some state) s))))).

(** What the updater of [handleMouseMove] does to one record. *)
Definition regap (cid : string) (gap : number) (c : AudioChunkData)
  : AudioChunkData :=
  if decide (id c = cid)
  then mkChunk (id c) (label c) (audioUrl c) (durationSeconds c) gap
  else c.

(** A timeline with a gap, and a press on its third chunk. *)
Definition demoGapped : list AudioChunkData :=
  [mkChunk "a" "A" "a.mp3" (int 2) 0; mkChunk "b" "B" "b.mp3" (int 3) (int 25);
   mkChunk "c" "C" "c.mp3" (int 1) (int 10)].
Definition sampleIdleGapped : State :=
  mkState demoGapped None None None 0 (Some sampleContainer) false false [] 1.
Definition samplePress : MouseEvent := mkMouseEvent 0 (int 500).
Definition sampleHeld : State :=
  pressed "c" samplePress (mkChunk "c" "C" "c.mp3" (int 1) (int 10))
          sampleIdleGapped.

(** Bookkeeping of the drag hook: the React state mirrors the ref; the
    document listeners are registered exactly while a session is held; at
    most one animation frame is pending and its handle is the one kept in
    [scrollRafRef]; without a session nothing is pending. *)
Definition controllerConsistent (s : State) : Prop :=
  dragState s = dragRef s
  ∧ (dragRef s = None →
       mousemoveListener s = false ∧ mouseupListener s = false
       ∧ scrollRafRef s = None ∧ frameRequests s = [])
  ∧ (is_Some (dragRef s) →
       mousemoveListener s = true ∧ mouseupListener s = true
       ∧ is_Some (scrollRafRef s))
  ∧ (frameRequests s = []
     ∨ ∃ h, frameRequests s = [h] ∧ scrollRafRef s = Some h).

(** The chunks are the demo chunks: same ids, labels and URLs, in the
    same order. *)
Definition demoIdentity (BASE_URL : string) (cs : list AudioChunkData)
  : Prop :=
  map id cs = map src_id (DEMO_CHUNKS BASE_URL)
  ∧ map label cs = map src_label (DEMO_CHUNKS BASE_URL)
  ∧ map audioUrl cs = map src_audioUrl (DEMO_CHUNKS BASE_URL).

(** Shape of the timeline data: nothing while loading, the demo chunks
    afterwards; gaps never negative; zoom within its bounds. *)
Definition timelineShape (BASE_URL : string) (app : App) : Prop :=
  (loading app = true → chunks (drag app) = [])
  ∧ (loading app = false → demoIdentity BASE_URL (chunks (drag app)))
  ∧ Forall (λ c, 0 ≤ gapBefore c) (chunks (drag app))
  ∧ MIN_PIXELS_PER_SECOND ≤ pixelsPerSecond app ≤ MAX_PIXELS_PER_SECOND.


(** By how much cards are widened to reach their 60 px minimum, summed
    over the chunks. *)
Definition shortfall (chunks : list AudioChunkData) (p : number) : number :=
  foldr (λ c acc, Math_max 0 (int 60 - durationSeconds c * p) + acc) 0 chunks.

(** The chunk of a held session is one of the chunks. *)
Definition sessionOnTimeline (app : App) : Prop :=
  ∀ session, dragRef (drag app) = Some session →
    chunkId session ∈ map id (chunks (drag app)).

(** * Properties *)

(** ** Arithmetic on canonical rationals *)

Lemma Qc_eq_Qeq (a b : Qc) : a = b ↔ (a == b)%Q.
Proof. split; [by intros ->|apply Qc_is_canon]. Qed.

(** Move a goal about [Qc] to [Q], where [lra] and [nra] apply. *)
Ltac qc2q :=
  rewrite ?Qc_eq_Qeq in *;
  unfold Qcle, Qclt, Qcdiv, Qcminus, Qcinv, Qcopp, Qcplus, Qcmult,
    int, frac, Qc_of_Z in *;
  cbn [this Q2Qc] in *; unfold inject_Z in *;
  repeat match goal with
  | H : context [Qred ?q] |- _ => rewrite (Qred_correct q) in H
  | |- context [Qred ?q] => rewrite (Qred_correct q)
  end.

(** Settle a closed decidable statement by evaluation. *)
Ltac by_compute := apply (bool_decide_unpack _); vm_compute; exact I.

Lemma Qc_div_mult (a b : Qc) : b ≠ 0 → a / b * b = a.
Proof. intros Hb. by field. Qed.

Lemma Qc_lt_neq (a : Qc) : 0 < a → a ≠ 0.
Proof. intros H ->. by apply (Qclt_not_eq 0 0). Qed.

(** ** Tick interval *)

Section FirstFit.
Variables pixelsPerSecond minPixelGap : number.
Implicit Types c : number.

Lemma firstFit_Some cs c :
  firstFit cs pixelsPerSecond minPixelGap = Some c →
  ∃ before after,
    cs = before ++ c :: after
    ∧ fits pixelsPerSecond minPixelGap c
    ∧ Forall (λ c', ¬ fits pixelsPerSecond minPixelGap c') before.
Proof.
  induction cs as [|c0 cs IH]; simpl; [done|].
  case_decide as Hfit.
  - intros [= ->]. by exists [], cs.
  - intros (before & after & -> & ? & ?)%IH.
    exists (c0 :: before), after. by repeat constructor.
Qed.

Lemma firstFit_None cs :
  firstFit cs pixelsPerSecond minPixelGap = None ↔
  Forall (λ c', ¬ fits pixelsPerSecond minPixelGap c') cs.
Proof.
  induction cs as [|c0 cs IH]; simpl; [by split; [constructor|]|].
  case_decide as Hfit.
  - split; [done|]. by inversion 1.
  - rewrite IH. split; [by constructor|]. by inversion 1.
Qed.

(** On an ascending list the first fit is the least fit. *)
Lemma firstFit_least cs c c' :
  StronglySorted Qcle cs →
  firstFit cs pixelsPerSecond minPixelGap = Some c →
  c' ∈ cs → fits pixelsPerSecond minPixelGap c' → c ≤ c'.
Proof.
  intros Hsorted (before & after & -> & _ & Hbefore)%firstFit_Some Hin Hfit.
  apply elem_of_app in Hin as [Hin|Hin].
  - rewrite Forall_forall in Hbefore. by destruct (Hbefore c').
  - apply elem_of_cons in Hin as [->|Hin]; [apply Qcle_refl|].
    induction before as [|b before IH]; simpl in Hsorted.
    + apply StronglySorted_inv in Hsorted as [_ Hall].
      rewrite Forall_forall in Hall. by apply Hall.
    + apply StronglySorted_inv in Hsorted as [Hsorted _].
      apply IH; [done|]. by inversion Hbefore.
Qed.
End FirstFit.

Lemma candidates_ascending : StronglySorted Qcle candidates.
Proof.
  unfold candidates.
  repeat (apply SSorted_cons; [|by_compute]).
  apply SSorted_nil.
Qed.

Lemma chooseTickInterval_in (p m : number) :
  chooseTickInterval p m ∈ candidates.
Proof.
  unfold chooseTickInterval, chooseTickIntervalFrom.
  destruct (firstFit candidates p m) as [c|] eqn:Hfit.
  - apply firstFit_Some in Hfit as (before & after & -> & _).
    set_solver.
  - by_compute.
Qed.

Lemma candidates_positive (c : number) : c ∈ candidates → 0 < c.
Proof.
  unfold candidates. rewrite !elem_of_cons, elem_of_nil.
  intros H. repeat destruct H as [->|H]; try done; by_compute.
Qed.

Lemma chooseTickInterval_positive (p m : number) : 0 < chooseTickInterval p m.
Proof. apply candidates_positive, chooseTickInterval_in. Qed.

(** C6.  For every zoom factor [p > 0] and the default minimum gap of 60,
    [chooseTickInterval p] is a candidate; whenever some candidate [c] has
    [c * p >= 60] the result has that property too and is no larger than
    [c] (it is the smallest such candidate); when no candidate qualifies
    the result is the largest candidate, 300; and
    [chooseTickInterval 50 = 2]. *)
Theorem chooseTickInterval_smallest (p : number) :
  0 < p →
  let r := chooseTickInterval p defaultMinPixelGap in
  r ∈ candidates
  ∧ (∀ c, c ∈ candidates → int 60 ≤ c * p → int 60 ≤ r * p ∧ r ≤ c)
  ∧ ((∀ c, c ∈ candidates → c * p < int 60) → r = int 300)
  ∧ chooseTickInterval (int 50) defaultMinPixelGap = int 2.
Proof.
  intros _ r. split; [apply chooseTickInterval_in|].
  subst r. unfold chooseTickInterval, chooseTickIntervalFrom.
  destruct (firstFit candidates p defaultMinPixelGap) as [r|] eqn:Hfit.
  - split; [|split].
    + intros c Hc Hfits. split.
      * by apply firstFit_Some in Hfit as (_ & _ & _ & ? & _).
      * eapply firstFit_least; eauto using candidates_ascending.
    + intros Hnone.
      apply firstFit_Some in Hfit as (before & after & Hcs & Hr & _).
      exfalso. apply (Qclt_not_le (r * p) (int 60)); [|done].
      apply Hnone. rewrite Hcs. set_solver.
    + by_compute.
  - split; [|split].
    + intros c Hc Hfits. apply firstFit_None in Hfit.
      rewrite Forall_forall in Hfit. by destruct (Hfit c).
    + intros _. by_compute.
    + by_compute.
Qed.

Lemma chooseTickInterval_smallest_witness :
  0 < int 50
  ∧ chooseTickInterval (int 50) defaultMinPixelGap ∈ candidates.
Proof.
  split; [by_compute|].
  apply (chooseTickInterval_smallest (int 50)). by_compute.
Defined.

(** ** Ruler width and chunk-row width *)

Lemma contentWidth_acc chunks p acc :
  foldl (λ sum c, sum + gapBefore c + durationSeconds c * p) acc chunks
  = acc + specChunkRowWidth chunks p.
Proof.
  revert acc. induction chunks as [|c chunks IH]; intros acc; simpl.
  - ring.
  - rewrite IH. ring.
Qed.

Lemma contentWidth_spec chunks p :
  contentWidth chunks p = specChunkRowWidth chunks p.
Proof. unfold contentWidth. rewrite contentWidth_acc. apply Qcplus_0_l. Qed.


(** ** The tick loop and the ruler *)

Lemma int_S (k : nat) : int (Z.of_nat (S k)) = int (Z.of_nat k) + 1.
Proof.
  unfold int. by rewrite Nat2Z.inj_succ, <-Z.add_1_r, Z2Qc_inj_add, Z2Qc_inj_1.
Qed.

Lemma int_nonneg (k : nat) : 0 ≤ int (Z.of_nat k).
Proof.
  unfold int. rewrite <-Z2Qc_inj_0, <-Z2Qc_inj_le. lia.
Qed.

(** With enough fuel the loop started at the [k0]-th multiple produces
    exactly the ticks of the multiples that do not exceed the limit. *)
Lemma tickLoop_run n : ∀ fuel k0 p i limit,
  (∀ k : nat, (k0 ≤ k < k0 + n)%nat → int (Z.of_nat k) * i ≤ limit) →
  limit < int (Z.of_nat (k0 + n)) * i →
  (n < fuel)%nat →
  tickLoop fuel p i limit (int (Z.of_nat k0) * i)
  = Some (map (λ k, tickAt p i (int (Z.of_nat k) * i)) (seq k0 n)).
Proof.
  induction n as [|n IH]; intros fuel k0 p i limit Hle Hgt Hfuel;
    (destruct fuel as [|fuel]; [lia|]); simpl.
  - rewrite Nat.add_0_r in Hgt.
    case_decide as Hcond; [|done].
    by apply Qclt_not_le in Hgt.
  - case_decide as Hcond.
    + replace (int (Z.of_nat k0) * i + i) with (int (Z.of_nat (S k0)) * i)
        by (rewrite int_S; ring).
      rewrite IH; [done| |by rewrite Nat.add_succ_comm|lia].
      intros k Hk. apply Hle. lia.
    + destruct Hcond. apply Hle. lia.
Qed.

Lemma int_floor_le (k : Z) (q : number) : int k ≤ q ↔ (k ≤ Math_floor q)%Z.
Proof.
  unfold Math_floor. split.
  - intros H. rewrite <-(Qfloor_Z k). by apply Qfloor_resp_le.
  - intros H. apply Qcle_trans with (int (Qfloor q)).
    + unfold int. by rewrite <-Z2Qc_inj_le.
    + apply Qfloor_le.
Qed.

Lemma Qc_le_div (a b c : Qc) : 0 < c → a ≤ b / c ↔ a * c ≤ b.
Proof.
  intros Hc. rewrite (Qcmult_le_mono_pos_r a (b / c) c Hc).
  by rewrite Qc_div_mult by by apply Qc_lt_neq.
Qed.

Lemma tickCount_spec (i limit : number) (k : nat) :
  0 < i → (k < tickCount i limit)%nat ↔ int (Z.of_nat k) * i ≤ limit.
Proof.
  intros Hi. unfold tickCount. case_decide as Hlimit.
  - rewrite <-Qc_le_div, int_floor_le by done.
    assert (0 ≤ Math_floor (limit / i)%Qc)%Z.
    { apply (proj1 (int_floor_le 0 _)). unfold int. rewrite Z2Qc_inj_0.
      apply (proj2 (Qc_le_div _ _ _ Hi)). by rewrite Qcmult_0_l. }
    lia.
  - split; [lia|]. intros Hle. destruct Hlimit.
    apply Qcle_trans with (int (Z.of_nat k) * i); [|done].
    apply Qcmult_nonneg_nonneg; [apply int_nonneg|by apply Qclt_le_weak].
Qed.

Lemma rem_nonneg (t m : number) : 0 ≤ t → 0 < m → rem t m = specMod t m.
Proof.
  intros Ht Hm. unfold rem, specMod, trunc, Math_floor.
  case_decide as Hq; [done|]. destruct Hq.
  apply Qc_le_div; [done|]. by rewrite Qcmult_0_l.
Qed.

Lemma int_pos (z : Z) : (0 < z)%Z → 0 < int z.
Proof. intros H. unfold int. by rewrite <-Z2Qc_inj_0, <-Z2Qc_inj_lt. Qed.

Lemma tickAt_specTick (p i : number) (k : nat) :
  0 < i → tickAt p i (int (Z.of_nat k) * i) = specTick p i k.
Proof.
  intros Hi. unfold tickAt, specTick. f_equal.
  rewrite (Qcmult_comm i (int 2)), rem_nonneg.
  - symmetry. apply bool_decide_or.
  - apply Qcmult_nonneg_nonneg; [apply int_nonneg|by apply Qclt_le_weak].
  - apply Qcmult_pos_pos; [by apply int_pos|done].
Qed.

(** The ruler computation returns once the fuel exceeds the number of
    ticks, with the ticks of all multiples of the interval up to the
    extended length. *)
Lemma rulerMemo_total (chunks : list AudioChunkData) (p : number) (fuel : nat) :
  let interval := chooseTickInterval p defaultMinPixelGap in
  let n := tickCount interval (extendedSeconds chunks p) in
  (n < fuel)%nat →
  rulerMemo fuel chunks p
  = Some (mkRuler (map (specTick p interval) (seq 0 n))
                  (extendedWidth chunks p)).
Proof.
  intros interval n Hfuel. unfold rulerMemo. fold interval.
  assert (0 < interval) as Hi by apply chooseTickInterval_positive.
  replace (0 : number) with (int (Z.of_nat 0) * interval)
    by (change (Z.of_nat 0) with 0%Z; unfold int; rewrite Z2Qc_inj_0;
        apply Qcmult_0_l).
  rewrite (tickLoop_run n); [| | |done].
  - simpl. do 2 f_equal. apply map_ext. intros k. by apply tickAt_specTick.
  - intros k Hk. apply tickCount_spec; [done|]. fold n. lia.
  - apply Qcnot_le_lt. intros Hle%tickCount_spec; [|done].
    fold n in Hle. lia.
Qed.


(** The row as rendered has the width of the formula whenever no card is
    narrower than its 60 px minimum, no gap is negative and the first
    chunk has no gap. *)
Lemma rowWidthFrom_spec (i : nat) chunks (p : number) :
  (0 < i)%nat →
  Forall (λ c, 0 ≤ gapBefore c ∧ int 60 ≤ durationSeconds c * p) chunks →
  rowWidthFrom i chunks p = specChunkRowWidth chunks p.
Proof.
  intros Hi Hall. revert i Hi.
  induction Hall as [|c chunks [Hgap Hwide] _ IH]; intros i Hi; [done|].
  cbn [rowWidthFrom specChunkRowWidth foldr].
  fold (specChunkRowWidth chunks p).
  rewrite IH by lia. rewrite decide_True by done.
  unfold TimelineGap_width, AudioChunk_width, Math_max.
  assert (¬ durationSeconds c * p < int 60) by by apply Qcle_not_lt.
  rewrite (decide_False (P := _ < _)) by done.
  case_decide as Hzero; [|done].
  by rewrite (Qcle_antisym _ _ Hzero Hgap).
Qed.

Lemma renderedRowWidth_spec chunks (p : number) :
  (∀ first, head chunks = Some first → gapBefore first = 0) →
  Forall (λ c, 0 ≤ gapBefore c ∧ int 60 ≤ durationSeconds c * p) chunks →
  renderedRowWidth chunks p = specChunkRowWidth chunks p.
Proof.
  intros Hfirst Hall. unfold renderedRowWidth.
  destruct Hall as [|c chunks [Hgap Hwide] Hall]; [done|].
  cbn [rowWidthFrom specChunkRowWidth foldr].
  fold (specChunkRowWidth chunks p).
  rewrite rowWidthFrom_spec by (done || lia).
  rewrite decide_False by lia. rewrite (Hfirst c eq_refl).
  unfold AudioChunk_width, Math_max.
  assert (¬ durationSeconds c * p < int 60) by by apply Qcle_not_lt.
  by rewrite (decide_False (P := _ < _)) by done.
Qed.







(** ** Timestamps *)

Lemma floor_lt_int (z : Z) (x : number) : x < int z ↔ (Math_floor x < z)%Z.
Proof. rewrite Qclt_nge, int_floor_le. lia. Qed.

Lemma floor_unique (x : number) (z : Z) :
  int z ≤ x → x < int (z + 1) → Math_floor x = z.
Proof. intros Hle%int_floor_le Hlt%floor_lt_int. lia. Qed.

Lemma floor_bounds (x : number) :
  int (Math_floor x) ≤ x ∧ x < int (Math_floor x + 1).
Proof.
  split.
  - by apply int_floor_le.
  - apply floor_lt_int. lia.
Qed.

(** Below 100, padding the decimal rendering to width two with zeros gives
    the tens digit followed by the units digit. *)
Lemma padStart_two_digits (n : Z) :
  (0 ≤ n < 100)%Z → padStart 2 "0" (toString n) = specTwoDigits n.
Proof.
  intros Hn.
  assert (Forall (λ k : nat,
            padStart 2 "0" (toString (Z.of_nat k))
            = specTwoDigits (Z.of_nat k)) (seq 0 100)) as Hall
    by by_compute.
  rewrite Forall_forall in Hall.
  rewrite <-(Z2Nat.id n) by lia. apply Hall, elem_of_seq. lia.
Qed.

(** Whole minutes and left-over seconds of a non-negative time. *)
Lemma minutes_seconds (s : number) :
  0 ≤ s →
  let mins := Math_floor (s / int 60) in
  rem s (int 60) = specMod s (int 60)
  ∧ specMod s (int 60) = s - int 60 * int mins
  ∧ int (60 * mins) ≤ s ∧ s < int (60 * mins + 60).
Proof.
  intros Hs mins.
  assert (0 < int 60) as H60 by by_compute.
  split; [by apply rem_nonneg|]. split; [done|].
  destruct (floor_bounds (s / int 60)) as [Hlo Hhi]. fold mins in Hlo, Hhi.
  apply Qc_le_div in Hlo; [|done].
  apply (Qcmult_lt_mono_pos_r _ _ _ H60) in Hhi.
  rewrite Qc_div_mult in Hhi by by apply Qc_lt_neq.
  unfold int in *. rewrite Z2Qc_inj_add, Z2Qc_inj_mul in *.
  qc2q. split; lra.
Qed.

(** C8.  For every [seconds >= 0], [formatTime] renders the whole minutes
    [floor(seconds / 60)] in plain decimal, then a colon, then
    [floor(seconds mod 60)], a value from 0 to 59, as exactly two digits;
    minutes and seconds are the quotient and remainder by 60 of the whole
    seconds [floor(seconds)], so a sub-second part is cut off, never rounded
    up.  In particular 0, 59, 60, 125 and 125.9 give "0:00", "0:59",
    "1:00", "2:05" and "2:05". *)
Theorem formatTime_spec (seconds : number) :
  0 ≤ seconds →
  let mins := Math_floor (seconds / int 60) in
  let secs := Math_floor (specMod seconds (int 60)) in
  formatTime seconds = specFormatTimestamp seconds
  ∧ specFormatTimestamp seconds = pretty mins +:+ ":" +:+ specTwoDigits secs
  ∧ (0 ≤ secs < 60)%Z
  ∧ mins = (Math_floor seconds `div` 60)%Z
  ∧ secs = (Math_floor seconds `mod` 60)%Z
  ∧ formatTime 0 = "0:00"
  ∧ formatTime (int 59) = "0:59"
  ∧ formatTime (int 60) = "1:00"
  ∧ formatTime (int 125) = "2:05"
  ∧ formatTime (frac 1259 10) = "2:05".
Proof.
  intros Hs mins secs.
  destruct (minutes_seconds seconds Hs) as (Hrem & Hmod & Hlo & Hhi).
  destruct (floor_bounds (specMod seconds (int 60))) as [Hslo Hshi].
  destruct (floor_bounds seconds) as [Hwlo Hwhi].
  assert (formatTime seconds
          = pretty mins +:+ ":" +:+ padStart 2 "0" (toString secs)) as Hfmt.
  { unfold formatTime. by rewrite Hrem. }
  assert (specFormatTimestamp seconds
          = pretty mins +:+ ":" +:+ specTwoDigits secs) as Hspec by done.
  rewrite Hfmt, Hspec. clear Hfmt Hspec Hrem.
  change (Math_floor (seconds / int 60)) with mins in Hmod, Hlo, Hhi.
  change (Math_floor (specMod seconds (int 60))) with secs in Hslo, Hshi.
  set (whole := Math_floor seconds) in *.
  clearbody mins secs whole.
  rewrite Hmod in Hslo, Hshi. clear Hmod.
  unfold int in *.
  rewrite ?Z2Qc_inj_add, ?Z2Qc_inj_mul in *.
  assert (0 ≤ secs < 60)%Z as Hsecs.
  { split.
    - apply Z.lt_succ_r, Z2Qc_inj_lt. unfold Z.succ.
      rewrite Z2Qc_inj_add. qc2q. lra.
    - apply Z2Qc_inj_lt. qc2q. lra. }
  assert (60 * mins ≤ whole < 60 * mins + 60)%Z as Hwhole.
  { split.
    - apply Z.lt_succ_r, Z2Qc_inj_lt. unfold Z.succ.
      rewrite Z2Qc_inj_add, Z2Qc_inj_mul. qc2q. lra.
    - apply Z2Qc_inj_lt. rewrite Z2Qc_inj_add, Z2Qc_inj_mul. qc2q. lra. }
  assert (secs = whole - 60 * mins)%Z as Hsecs_eq.
  { apply Z.le_antisymm.
    - apply Z.lt_succ_r, Z2Qc_inj_lt. unfold Z.succ.
      rewrite Z2Qc_inj_add, Z2Qc_inj_sub, Z2Qc_inj_mul. qc2q. lra.
    - apply Z.lt_succ_r, Z2Qc_inj_lt. unfold Z.succ.
      rewrite Z2Qc_inj_add, Z2Qc_inj_sub, Z2Qc_inj_mul. qc2q. lra. }
  split; [|split; [done|split; [done|split; [|split]]]].
  - by rewrite padStart_two_digits by lia.
  - apply (Z.div_unique whole 60 mins (whole - 60 * mins)); lia.
  - rewrite Hsecs_eq.
    apply (Z.mod_unique whole 60 mins (whole - 60 * mins)); lia.
  - repeat split; by vm_compute.
Qed.

Lemma formatTime_spec_witness :
  0 ≤ frac 1259 10
  ∧ formatTime (frac 1259 10) = specFormatTimestamp (frac 1259 10).
Proof.
  split; [by_compute|].
  apply (formatTime_spec (frac 1259 10)). by_compute.
Defined.

(** ** The drag controller *)

Lemma findIndex_from_spec {A} (p : A → bool) (xs : list A) (i : Z) :
  (findIndex_from p xs i = -1 ∧ Forall (λ x, p x = false) xs)%Z
  ∨ ∃ (n : nat) (x : A),
      findIndex_from p xs i = (i + Z.of_nat n)%Z
      ∧ xs !! n = Some x ∧ p x = true
      ∧ Forall (λ y, p y = false) (take n xs).
Proof.
  revert i. induction xs as [|x xs IH]; intros i; simpl.
  - left. by split.
  - destruct (p x) eqn:Hpx.
    + right. exists 0%nat, x. rewrite Z.add_0_r. by repeat split.
    + destruct (IH (i + 1)%Z) as [[-> Hall]|(n & y & -> & Hy & Hpy & Hall)].
      * left. split; [done|]. by constructor.
      * right. exists (S n), y. repeat split; [lia|done|done|].
        by constructor.
Qed.

Lemma findIndex_head {A} (p : A → bool) (x : A) (xs : list A) :
  p x = true → findIndex p (x :: xs) = 0%Z.
Proof. intros Hp. unfold findIndex. simpl. by rewrite Hp. Qed.

Lemma findIndex_absent {A} (p : A → bool) (xs : list A) :
  Forall (λ x, p x = false) xs → findIndex p xs = (-1)%Z.
Proof.
  intros Hall. unfold findIndex.
  destruct (findIndex_from_spec p xs 0) as [[? _]|(n & x & _ & Hx & Hp & _)];
    [done|].
  rewrite Forall_lookup in Hall. specialize (Hall _ _ Hx). congruence.
Qed.

(** The handler never lets an error escape: the index it looks up is the
    one [findIndex] has just returned. *)
Lemma onChunkMouseDown_returns (cid : string) (e : MouseEvent) (s : State) :
  onChunkMouseDown cid e s ≠ Threw.
Proof.
  unfold onChunkMouseDown. repeat case_decide; try done.
  unfold findIndex in *.
  destruct (findIndex_from_spec (λ c, bool_decide (id c = cid)) (chunks s) 0)
    as [[Hidx _]|(n & x & Hidx & Hx & _)]; [lia|].
  rewrite Hidx, Z.add_0_l, Nat2Z.id, Hx. done.
Qed.

Lemma Math_max_spec (a b : number) :
  a ≤ Math_max a b ∧ b ≤ Math_max a b
  ∧ (Math_max a b = a ∨ Math_max a b = b).
Proof.
  unfold Math_max. case_decide as Hlt.
  - repeat split; [by apply Qclt_le_weak|apply Qcle_refl|by right].
  - repeat split; [apply Qcle_refl|by apply Qcnot_lt_le|by left].
Qed.

(** What a pointer move does to the chunk at one position of the list. *)
Lemma handleMouseMove_lookup (s : State) (drag : DragState) (x : number)
    (i : nat) (c : AudioChunkData) :
  dragRef s = Some drag →
  chunks s !! i = Some c →
  chunks (handleMouseMove x s) !! i
  = Some (if decide (id c = chunkId drag)
          then mkChunk (id c) (label c) (audioUrl c) (durationSeconds c)
                 (Math_max 0 (initialGapBefore drag + (x - startMouseX drag)))
          else c).
Proof.
  intros Hdrag Hc. unfold handleMouseMove. rewrite Hdrag.
  cbn [chunks set_chunks]. by rewrite list_lookup_fmap, Hc.
Qed.

(** C2.  While a drag session is held, a pointer move to [x] leaves the
    list with the same length and the same chunks in the same order; the
    dragged chunk (the one whose id is the session's) gets
    [gapBefore = max(0, initialGapBefore + (x - startMouseX))], which is
    the larger of the two values, keeping its id, label, audioUrl and
    durationSeconds; every other chunk record is unchanged. *)
Theorem handleMouseMove_gap (s : State) (drag : DragState) (x : number) :
  dragRef s = Some drag →
  let moved := initialGapBefore drag + (x - startMouseX drag) in
  let newGap := Math_max 0 moved in
  let s' := handleMouseMove x s in
  length (chunks s') = length (chunks s)
  ∧ map id (chunks s') = map id (chunks s)
  ∧ (∀ (i : nat) (c : AudioChunkData),
       chunks s !! i = Some c →
       ∃ c', chunks s' !! i = Some c'
             ∧ (id c = chunkId drag →
                  c' = mkChunk (id c) (label c) (audioUrl c)
                               (durationSeconds c) newGap)
             ∧ (id c ≠ chunkId drag → c' = c))
  ∧ 0 ≤ newGap ∧ moved ≤ newGap ∧ (newGap = 0 ∨ newGap = moved)
  ∧ dragRef s' = Some drag.
Proof.
  intros Hdrag moved newGap s'.
  assert (∀ i c, chunks s !! i = Some c →
            ∃ c', chunks s' !! i = Some c'
                  ∧ (id c = chunkId drag →
                       c' = mkChunk (id c) (label c) (audioUrl c)
                                    (durationSeconds c) newGap)
                  ∧ (id c ≠ chunkId drag → c' = c)) as Hlookup.
  { intros i c Hc. subst s'.
    rewrite (handleMouseMove_lookup s drag x i c Hdrag Hc).
    eexists. split; [done|]. by case_decide. }
  subst s'. unfold handleMouseMove in *. rewrite Hdrag in *.
  fold moved newGap in Hlookup |- *.
  cbn [chunks set_chunks dragRef set_mouseXRef] in *.
  split; [by rewrite length_map|]. split.
  { rewrite <-list_fmap_compose. apply list_fmap_ext.
    intros i c _. simpl. by case_decide. }
  split; [exact Hlookup|].
  by destruct (Math_max_spec 0 moved) as (? & ? & ?).
Qed.

Lemma handleMouseMove_gap_witness :
  dragRef sampleDragging = Some sampleDrag
  ∧ length (chunks (handleMouseMove (int 340) sampleDragging))
    = length (chunks sampleDragging).
Proof.
  split; [reflexivity|].
  apply (handleMouseMove_gap sampleDragging sampleDrag (int 340)).
  reflexivity.
Defined.

(** C10.  With no drag session held (as in the idle state), a mouse-move
    leaves the whole state as it is (every chunk record, the drag state,
    the scroll container and its scroll position), and so does the
    auto-scroll function; when the browser runs a pending animation frame
    the scroll container and the chunks are unchanged as well. *)
Theorem idle_handlers_change_nothing (s : State) (x : number) :
  dragRef s = None →
  handleMouseMove x s = s
  ∧ autoScrollFn s = s
  ∧ scrollContainer (runFrame s) = scrollContainer s
  ∧ chunks (runFrame s) = chunks s
  ∧ dragRef (runFrame s) = None.
Proof.
  intros Hdrag. split; [|split].
  - unfold handleMouseMove. by rewrite Hdrag.
  - unfold autoScrollFn. rewrite Hdrag. by destruct (scrollContainer s).
  - unfold runFrame. destruct (frameRequests s) as [|h rest]; [done|].
    unfold autoScrollFn. cbn [scrollContainer dragRef set_frameRequests].
    rewrite Hdrag. by destruct (scrollContainer s) eqn:Hcontainer.
Qed.

Lemma idle_handlers_change_nothing_witness :
  dragRef sampleIdle = None
  ∧ handleMouseMove (int 340) sampleIdle = sampleIdle.
Proof.
  split; [reflexivity|].
  apply (idle_handlers_change_nothing sampleIdle (int 340)). reflexivity.
Defined.

(** C4.  A primary-button press on the first chunk, or with an id that no
    chunk carries, returns normally (no error escapes) and leaves the state
    exactly as it was: no drag session is stored, no document listener is
    registered, no animation frame is requested.  In particular an idle
    controller stays idle. *)
Theorem mouseDown_invalid_target_ignored (s : State) (cid : string)
    (e : MouseEvent) :
  button e = 0%Z →
  (∃ c rest, chunks s = c :: rest ∧ id c = cid)
  ∨ (∀ c, c ∈ chunks s → id c ≠ cid) →
  onChunkMouseDown cid e s = Returned true s
  ∧ (Idle s →
     ∀ prevented s', onChunkMouseDown cid e s = Returned prevented s' →
       Idle s' ∧ frameRequests s' = frameRequests s ∧ chunks s' = chunks s).
Proof.
  intros Hbutton Htarget.
  assert (onChunkMouseDown cid e s = Returned true s) as Hret.
  { unfold onChunkMouseDown. rewrite decide_False by (by intros []).
    destruct Htarget as [(c & rest & -> & Hid)|Hnone].
    - rewrite findIndex_head by (by apply bool_decide_eq_true).
      by rewrite decide_False, decide_True by lia.
    - rewrite findIndex_absent; [by rewrite decide_True by lia|].
      apply Forall_forall. intros c Hc. apply bool_decide_eq_false.
      by apply Hnone. }
  split; [done|]. intros Hidle prevented s'. rewrite Hret.
  by intros [= <- <-].
Qed.

Lemma mouseDown_invalid_target_ignored_witness :
  button (mkMouseEvent 0 (int 40)) = 0%Z
  ∧ onChunkMouseDown "a" (mkMouseEvent 0 (int 40)) sampleIdle
    = Returned true sampleIdle.
Proof.
  split; [reflexivity|].
  apply (mouseDown_invalid_target_ignored sampleIdle "a"
           (mkMouseEvent 0 (int 40))); [reflexivity|].
  left. by eexists _, _.
Defined.

(** ** Auto-scroll *)

Lemma ceil_le_int (x : number) (z : Z) : x ≤ int z ↔ (Math_ceil x ≤ z)%Z.
Proof.
  unfold Math_ceil. split.
  - intros H. rewrite <-(Qceiling_Z z). by apply Qceiling_resp_le.
  - intros H. apply Qcle_trans with (int (Qceiling x)).
    + apply Qle_ceiling.
    + unfold int. by rewrite <-Z2Qc_inj_le.
Qed.

Lemma int_lt_ceil (x : number) (z : Z) : int z < x ↔ (z < Math_ceil x)%Z.
Proof. rewrite Qclt_nge, ceil_le_int. lia. Qed.

Lemma div_80 (d : number) : d / int 80 = d * frac 1 80.
Proof.
  unfold Qcdiv. by f_equal.
Qed.


Lemma specRampSpeed_range (d : number) :
  0 < d → d < int 80 → (1 ≤ specRampSpeed d ≤ 12)%Z.
Proof.
  intros Hpos Hlt. unfold specRampSpeed. split.
  - cut (0 < specRampSpeed d)%Z; [unfold specRampSpeed; lia|].
    apply int_lt_ceil. rewrite div_80. qc2q. lra.
  - apply ceil_le_int. rewrite div_80. qc2q. lra.
Qed.





(** ** Start-up load *)

Section Load.
Variable BASE_URL : string.
Variable loadAudioDuration : string → Promise number.

Lemma all_values_loadOne (sources : list ChunkSource)
    (loaded : list AudioChunkData) :
  all_values (map (loadOne loadAudioDuration) sources) = Some loaded →
  Forall2 (λ c v, ∃ dur, v = withDuration dur c) sources loaded.
Proof.
  revert loaded. induction sources as [|c sources IH]; intros loaded; simpl.
  - intros [= <-]. constructor.
  - unfold loadOne at 1.
    destruct (loadAudioDuration (src_audioUrl c)) as [dur| |]; [|done..].
    destruct (all_values _) as [vs|] eqn:Hvs; [|done].
    intros [= <-]. constructor; [by exists dur|by apply IH].
Qed.

Lemma Promise_all_rejected {A} (ps : list (Promise A)) :
  Rejected ∈ ps → Promise_all ps = Rejected.
Proof.
  intros Hin. unfold Promise_all.
  replace (existsb is_rejected ps) with true; [done|].
  symmetry. apply existsb_exists. exists Rejected.
  split; [by apply list_elem_of_In|done].
Qed.

(** Whatever the outcome of the loads, the chunks handed to [setChunks]
    carry the gaps of the source list, which are all 0. *)
Lemma loadDurations_gaps (cancelled : bool) (es : list Effect)
    (value : list AudioChunkData) :
  loadDurations BASE_URL loadAudioDuration cancelled = Some es →
  SetChunks value ∈ es →
  Forall (λ c, gapBefore c = 0) value.
Proof.
  unfold loadDurations.
  destruct (Promise_all _) as [loaded| |] eqn:Hall; [| |done].
  - intros [= <-]. destruct cancelled; [by intros ?%elem_of_nil|].
    rewrite !elem_of_cons, elem_of_nil. intros [[= ->]|[|[]]]; [|done].
    unfold Promise_all in Hall.
    destruct (existsb _ _); [done|].
    destruct (all_values _) as [vs|] eqn:Hvs; [|done].
    injection Hall as ->.
    apply all_values_loadOne in Hvs.
    assert (Forall (λ c, src_gapBefore c = 0) (DEMO_CHUNKS BASE_URL))
      as Hsrc by (by repeat constructor).
    clear -Hvs Hsrc.
    induction Hvs as [|c v cs vs [dur ->] _ IH]; [constructor|].
    inversion_clear Hsrc. constructor; [done|by apply IH].
  - intros [= <-]. rewrite elem_of_cons. intros [|Hin]; [done|].
    destruct cancelled; [by apply elem_of_nil in Hin|].
    revert Hin. rewrite !elem_of_cons, elem_of_nil.
    intros [[= ->]|[|[]]]; [|done].
    by repeat constructor.
Qed.

Lemma loadDurations_shape (es : list Effect) :
  loadDurations BASE_URL loadAudioDuration false = Some es →
  ∃ msgs value,
    es = msgs ++ [SetChunks value; SetLoading false]
    ∧ Forall (λ e, ∃ msg, e = ConsoleError msg) msgs.
Proof.
  unfold loadDurations.
  destruct (Promise_all _) as [loaded| |]; [| |done]; intros [= <-].
  - by exists [], loaded.
  - eexists [_], _. split; [done|]. repeat constructor. by eexists.
Qed.

Lemma runEffects_load (msgs : list Effect) (value : list AudioChunkData)
    (app : App) :
  Forall (λ e, ∃ msg, e = ConsoleError msg) msgs →
  runEffects (msgs ++ [SetChunks value; SetLoading false]) app
  = mkApp (set_chunks value (drag app)) (pixelsPerSecond app) false.
Proof.
  intros Hmsgs. unfold runEffects. rewrite foldl_app.
  replace (foldl applyEffect app msgs) with app; [done|].
  induction Hmsgs as [|e msgs [msg ->] _ IH]; [done|]. simpl.
  by destruct app.
Qed.

(** The loading flag never goes back to [true]. *)
Lemma step_loading_false (app app' : App) :
  step BASE_URL loadAudioDuration app app' →
  loading app = false → loading app' = false.
Proof. destruct 1; simpl; congruence. Qed.

Lemma rtc_step_loading_false (app app' : App) :
  rtc (step BASE_URL loadAudioDuration) app app' →
  loading app = false → loading app' = false.
Proof. induction 1; eauto using step_loading_false. Qed.

End Load.

(** C9.  If the duration load of some demo chunk is rejected and the
    component is still mounted and loading, the asynchronous body
    completes with exactly three effects: it logs the failure to the
    console, replaces the chunk list by the five demo chunks all with
    [durationSeconds = 5], and sets [loading] to [false], once.  No other
    effect exists (nothing is shown to the user), and no later event sets
    [loading] back to [true].  When the component is no longer mounted the
    failure is logged and nothing else happens. *)
Theorem load_failure_fallback (BASE_URL : string)
    (loadAudioDuration : string → Promise number) (app : App) :
  (∃ c, c ∈ DEMO_CHUNKS BASE_URL
        ∧ loadAudioDuration (src_audioUrl c) = Rejected) →
  loading app = true →
  let fallback := map (withDuration (int 5)) (DEMO_CHUNKS BASE_URL) in
  let es := [ConsoleError "Error loading audio durations:";
             SetChunks fallback; SetLoading false] in
  let app' := runEffects es app in
  loadDurations BASE_URL loadAudioDuration false = Some es
  ∧ chunks (drag app') = fallback
  ∧ length fallback = 5%nat
  ∧ Forall (λ c, durationSeconds c = int 5) (chunks (drag app'))
  ∧ loading app' = false
  ∧ filter (λ e, isSetLoading e = true) es = [SetLoading false]
  ∧ step BASE_URL loadAudioDuration app app'
  ∧ (∀ app'', rtc (step BASE_URL loadAudioDuration) app' app'' →
       loading app'' = false)
  ∧ loadDurations BASE_URL loadAudioDuration true
    = Some [ConsoleError "Error loading audio durations:"].
Proof.
  intros (c & Hc & Hrejected) Hloading fallback es app'.
  assert (Promise_all (map (loadOne loadAudioDuration) (DEMO_CHUNKS BASE_URL))
          = Rejected) as Hall.
  { apply Promise_all_rejected, list_elem_of_fmap. exists c.
    split; [|done]. unfold loadOne. by rewrite Hrejected. }
  assert (loadDurations BASE_URL loadAudioDuration false = Some es) as Hes.
  { unfold loadDurations. by rewrite Hall. }
  split; [done|]. split; [done|]. split; [done|].
  split; [by repeat constructor|]. split; [done|]. split; [done|].
  split; [by apply step_load|]. split.
  - intros app'' Hrun. by eapply rtc_step_loading_false.
  - unfold loadDurations. by rewrite Hall.
Qed.

Lemma load_failure_fallback_witness :
  (∃ c, c ∈ DEMO_CHUNKS "" ∧ sampleFailingLoad (src_audioUrl c) = Rejected)
  ∧ loading mounted = true
  ∧ loadDurations "" sampleFailingLoad false
    = Some [ConsoleError "Error loading audio durations:";
            SetChunks (map (withDuration (int 5)) (DEMO_CHUNKS ""));
            SetLoading false].
Proof.
  assert (∃ c, c ∈ DEMO_CHUNKS ""
               ∧ sampleFailingLoad (src_audioUrl c) = Rejected) as Hfail.
  { exists (mkSource "c" "Goblins" "/sounds/goblins.mp3" 0).
    split; [|reflexivity]. unfold DEMO_CHUNKS. simpl.
    do 2 constructor 2. constructor 1. }
  split; [exact Hfail|]. split; [reflexivity|].
  apply (load_failure_fallback "" sampleFailingLoad mounted Hfail).
  reflexivity.
Defined.

(** ** The first chunk never gets a gap *)

Lemma startAutoScroll_frame (s : State) :
  chunks (startAutoScroll s) = chunks s
  ∧ dragRef (startAutoScroll s) = dragRef s.
Proof. unfold startAutoScroll. by destruct (scrollRafRef s). Qed.

Lemma autoScrollFn_frame (s : State) :
  chunks (autoScrollFn s) = chunks s ∧ dragRef (autoScrollFn s) = dragRef s.
Proof.
  unfold autoScrollFn.
  by destruct (scrollContainer s), (dragRef s) eqn:Hdrag.
Qed.

Lemma runFrame_frame (s : State) :
  chunks (runFrame s) = chunks s ∧ dragRef (runFrame s) = dragRef s.
Proof.
  unfold runFrame. destruct (frameRequests s) as [|h rest]; [done|].
  by destruct (autoScrollFn_frame (set_frameRequests rest s)) as [-> ->].
Qed.

Lemma handleMouseUp_frame (s : State) :
  chunks (handleMouseUp s) = chunks s ∧ dragRef (handleMouseUp s) = None.
Proof.
  unfold handleMouseUp, stopAutoScroll. simpl.
  by destruct (scrollRafRef s).
Qed.

(** A press either changes nothing about chunks and session, or starts a
    session for a chunk found at an index greater than 0. *)
Lemma onChunkMouseDown_cases (cid : string) (e : MouseEvent) (s s' : State)
    (prevented : bool) :
  onChunkMouseDown cid e s = Returned prevented s' →
  chunks s' = chunks s
  ∧ (dragRef s' = dragRef s
     ∨ ∃ chunk,
         dragRef s' = Some (mkDrag cid (clientX e) (gapBefore chunk))
         ∧ (0 < findIndex (λ c, bool_decide (id c = cid)) (chunks s))%Z).
Proof.
  unfold onChunkMouseDown.
  repeat case_decide; try (intros [= <- <-]; by auto).
  destruct (chunks s !! _) as [chunk|] eqn:Hchunk; [|done].
  intros [= <- <-]. simpl.
  match goal with
  | |- context [startAutoScroll ?s0] =>
      destruct (startAutoScroll_frame s0) as [-> ->]
  end.
  split; [done|]. right. exists chunk. split; [done|lia].
Qed.

Lemma findIndex_positive_head (cid : string) (first : AudioChunkData)
    (rest : list AudioChunkData) :
  (0 < findIndex (λ c, bool_decide (id c = cid)) (first :: rest))%Z →
  cid ≠ id first.
Proof.
  intros Hpos ->. rewrite findIndex_head in Hpos; [lia|].
  by apply bool_decide_eq_true.
Qed.

Section Invariant.
Variable BASE_URL : string.
Variable loadAudioDuration : string → Promise number.

Lemma firstChunkFixed_mounted : firstChunkFixed mounted.
Proof. by split. Qed.

Lemma firstChunkFixed_step (app app' : App) :
  step BASE_URL loadAudioDuration app app' →
  firstChunkFixed app → firstChunkFixed app'.
Proof.
  intros Hstep [Hloading Hfirst].
  destruct Hstep as [app es Hl Hes|app cid e prevented s' Hdown|app x _
                    |app _|app|app value _|app el deltaY _|app el Hl].
  - (* load *)
    destruct (Hloading Hl) as [_ Hnodrag].
    destruct (loadDurations_shape _ _ _ Hes) as (msgs & value & -> & Hmsgs).
    rewrite runEffects_load by done.
    split; [done|]. simpl. intros first Hhead. split.
    + assert (Forall (λ c, gapBefore c = 0) value) as Hgaps.
      { eapply loadDurations_gaps; [exact Hes|].
        apply elem_of_app. right. constructor 1. }
      destruct value as [|c value]; [done|].
      injection Hhead as <-. by inversion Hgaps.
    + intros session. by rewrite Hnodrag.
  - (* mouse down *)
    destruct (onChunkMouseDown_cases _ _ _ _ _ Hdown)
      as [Hchunks [Hsame|(chunk & Hnew & Hpos)]];
      (split; simpl; [intros Hl; destruct (Hloading Hl) as [Hnil Hnone]|]).
    + by rewrite Hchunks, Hsame.
    + rewrite Hchunks, Hsame. apply Hfirst.
    + rewrite Hnil in Hpos. by vm_compute in Hpos.
    + rewrite Hchunks, Hnew. intros first Hhead.
      split; [by apply Hfirst|]. intros session [= <-]. simpl.
      destruct (chunks (drag app)) as [|c rest]; [done|].
      injection Hhead as <-. by apply findIndex_positive_head in Hpos.
  - (* mouse move *)
    split; simpl.
    + intros Hl. destruct (Hloading Hl) as [Hnil Hnone].
      unfold handleMouseMove. by rewrite Hnone.
    + unfold handleMouseMove.
      destruct (dragRef (drag app)) as [session|] eqn:Hsession;
        [|by rewrite Hsession].
      simpl. rewrite Hsession.
      destruct (chunks (drag app)) as [|c rest]; [done|].
      destruct (Hfirst c eq_refl) as [Hgap Hother]. simpl.
      rewrite decide_False by (intros Heq; by apply (Hother session)).
      by intros first [= <-].
  - (* mouse up *)
    destruct (handleMouseUp_frame (drag app)) as [Hchunks Hnone].
    split; cbn [drag with_drag loading]; rewrite Hchunks, Hnone.
    + intros Hl. by destruct (Hloading Hl).
    + intros first Hhead. by destruct (Hfirst first Hhead).
  - (* animation frame *)
    destruct (runFrame_frame (drag app)) as [Hchunks Hsame].
    split; cbn [drag with_drag loading]; by rewrite Hchunks, Hsame.
  - (* zoom *) done.
  - (* wheel *) done.
  - (* layout *) done.
Qed.

Lemma reachable_firstChunkFixed (app : App) :
  reachable BASE_URL loadAudioDuration app → firstChunkFixed app.
Proof.
  unfold reachable. intros Hrun.
  eapply (rtc_ind_r (λ a, firstChunkFixed a)); [| |exact Hrun].
  - apply firstChunkFixed_mounted.
  - intros before after _ Hstep Hfixed. by eapply firstChunkFixed_step.
Qed.
End Invariant.

(** C5.  In every state the component can reach from its first render by
    load completion, presses, pointer moves and releases, animation frames,
    zoom changes, wheel events and layout changes, the first chunk, if
    there is one, has [gapBefore = 0], and a held drag session is never for
    the first chunk.  The chunk lists that the load installs have all
    gaps 0, a press starts a session only for a chunk found at an index
    greater than 0, and a pointer move leaves every chunk whose id is not
    the session's as it is. *)
Theorem first_gap_always_zero (BASE_URL : string)
    (loadAudioDuration : string → Promise number) (app : App) :
  reachable BASE_URL loadAudioDuration app →
  (∀ first, chunks (drag app) !! 0%nat = Some first → gapBefore first = 0)
  ∧ (∀ first session,
       chunks (drag app) !! 0%nat = Some first →
       dragRef (drag app) = Some session → chunkId session ≠ id first)
  ∧ (∀ cancelled es value,
       loadDurations BASE_URL loadAudioDuration cancelled = Some es →
       SetChunks value ∈ es → Forall (λ c, gapBefore c = 0) value)
  ∧ (∀ cid e prevented s',
       onChunkMouseDown cid e (drag app) = Returned prevented s' →
       dragRef s' ≠ dragRef (drag app) →
       (0 < findIndex (λ c, bool_decide (id c = cid)) (chunks (drag app)))%Z)
  ∧ (∀ session x i c,
       dragRef (drag app) = Some session →
       chunks (drag app) !! i = Some c →
       id c ≠ chunkId session →
       chunks (handleMouseMove x (drag app)) !! i = Some c).
Proof.
  intros [_ Hfirst]%reachable_firstChunkFixed.
  split; [|split; [|split; [|split]]].
  - intros first Hhead. rewrite <-head_lookup in Hhead.
    by destruct (Hfirst first Hhead).
  - intros first session Hhead Hsession. rewrite <-head_lookup in Hhead.
    destruct (Hfirst first Hhead) as [_ Hother]. by apply Hother.
  - apply loadDurations_gaps.
  - intros cid e prevented s' Hdown Hchanged.
    by destruct (onChunkMouseDown_cases _ _ _ _ _ Hdown)
      as [_ [?|(chunk & _ & ?)]].
  - intros session x i c Hsession Hc Hother.
    rewrite (handleMouseMove_lookup _ session x i c Hsession Hc).
    by rewrite decide_False.
Qed.

Lemma sampleMoved_reachable : reachable "" sampleLoad sampleMoved.
Proof.
  unfold reachable.
  apply rtc_l with sampleLoaded.
  { unfold sampleLoaded. apply step_load; reflexivity. }
  apply rtc_l with sampleGrabbed.
  { unfold sampleGrabbed.
    apply (step_mouseDown _ _ _ "b" (mkMouseEvent 0 (int 300)) true).
    reflexivity. }
  apply rtc_once. unfold sampleMoved. apply step_mouseMove. reflexivity.
Qed.

Lemma first_gap_always_zero_witness :
  reachable "" sampleLoad sampleMoved
  ∧ ∀ first, chunks (drag sampleMoved) !! 0%nat = Some first →
      gapBefore first = 0.
Proof.
  split; [exact sampleMoved_reachable|].
  apply (first_gap_always_zero "" sampleLoad sampleMoved).
  exact sampleMoved_reachable.
Defined.

(** ** The sample run, evaluated *)

Example sampleGrabbed_session :
  dragRef (drag sampleGrabbed) = Some (mkDrag "b" (int 300) 0)
  ∧ mousemoveListener (drag sampleGrabbed) = true
  ∧ mouseupListener (drag sampleGrabbed) = true
  ∧ scrollRafRef (drag sampleGrabbed) = Some 1%nat.
Proof. repeat split; by_compute. Qed.

Example sampleMoved_gaps :
  map gapBefore (chunks (drag sampleMoved)) = [0; int 40; 0; 0; 0].
Proof. by_compute. Qed.

Example sampleReleased_idle :
  Idle (handleMouseUp (drag sampleMoved))
  ∧ frameRequests (handleMouseUp (drag sampleMoved)) = [].
Proof. repeat split. Qed.


(** * Properties of the remaining code *)

(** ** Press, move, release *)

Lemma findIndex_first {A} (p : A → bool) (xs : list A) (n : nat) (x : A) :
  Forall (λ y, p y = false) (take n xs) →
  xs !! n = Some x → p x = true →
  findIndex p xs = Z.of_nat n.
Proof.
  intros Hbefore Hx Hpx. unfold findIndex.
  destruct (findIndex_from_spec p xs 0)
    as [[_ Hnone]|(m & y & -> & Hy & Hpy & Hm)].
  - rewrite Forall_lookup in Hnone. specialize (Hnone _ _ Hx). congruence.
  - rewrite Z.add_0_l. f_equal.
    destruct (Nat.lt_trichotomy m n) as [Hlt|[->|Hlt]]; [|done|].
    + rewrite Forall_lookup in Hbefore.
      rewrite <-(lookup_take_lt _ n) in Hy by done.
      specialize (Hbefore _ _ Hy). congruence.
    + rewrite Forall_lookup in Hm.
      rewrite <-(lookup_take_lt _ m) in Hx by done.
      specialize (Hm _ _ Hx). congruence.
Qed.

(** A press either leaves the state as it is or is accepted for the first
    chunk carrying the id, which is not at index 0. *)
Lemma onChunkMouseDown_inv (cid : string) (e : MouseEvent) (s s' : State)
    (prevented : bool) :
  onChunkMouseDown cid e s = Returned prevented s' →
  s' = s
  ∨ (button e = 0%Z
     ∧ ∃ (n : nat) (chunk : AudioChunkData),
         (0 < n)%nat ∧ chunks s !! n = Some chunk ∧ id chunk = cid
         ∧ Forall (λ c, id c ≠ cid) (take n (chunks s))
         ∧ s' = pressed cid e chunk s).
Proof.
  unfold onChunkMouseDown.
  case_decide as Hbutton; [intros [= _ <-]; by left|].
  case_decide as Hneg; [intros [= _ <-]; by left|].
  case_decide as Hzero; [intros [= _ <-]; by left|].
  unfold findIndex in *.
  destruct (findIndex_from_spec (λ c, bool_decide (id c = cid)) (chunks s) 0)
    as [[Hidx _]|(n & x & Hidx & Hx & Hpx & Hbefore)]; [lia|].
  rewrite Hidx, Z.add_0_l in *. rewrite Nat2Z.id, Hx.
  intros [= _ <-]. right. split; [lia|].
  exists n, x. split; [lia|]. split; [done|].
  split; [by apply bool_decide_eq_true in Hpx|]. split; [|done].
  eapply Forall_impl; [exact Hbefore|].
  intros c Hc. by apply bool_decide_eq_false in Hc.
Qed.

Lemma onChunkMouseDown_accept (cid : string) (e : MouseEvent) (s : State)
    (n : nat) (chunk : AudioChunkData) :
  button e = 0%Z → (0 < n)%nat →
  chunks s !! n = Some chunk → id chunk = cid →
  Forall (λ c, id c ≠ cid) (take n (chunks s)) →
  onChunkMouseDown cid e s = Returned true (pressed cid e chunk s).
Proof.
  intros Hbutton Hn Hchunk Hid Hbefore. unfold onChunkMouseDown.
  rewrite decide_False by (by intros []).
  rewrite (findIndex_first _ _ n chunk); [| |done|by apply bool_decide_eq_true].
  - rewrite !decide_False by lia. by rewrite Nat2Z.id, Hchunk.
  - eapply Forall_impl; [exact Hbefore|].
    intros c Hc. by apply bool_decide_eq_false.
Qed.

Lemma pressed_fields (cid : string) (e : MouseEvent) (chunk : AudioChunkData)
    (s : State) :
  let state := mkDrag cid (clientX e) (gapBefore chunk) in
  chunks (pressed cid e chunk s) = chunks s
  ∧ dragRef (pressed cid e chunk s) = Some state
  ∧ dragState (pressed cid e chunk s) = Some state
  ∧ mouseXRef (pressed cid e chunk s) = clientX e
  ∧ scrollContainer (pressed cid e chunk s) = scrollContainer s
  ∧ mousemoveListener (pressed cid e chunk s) = true
  ∧ mouseupListener (pressed cid e chunk s) = true.
Proof.
  unfold pressed, startAutoScroll. simpl. by destruct (scrollRafRef s).
Qed.

(** X1.  A primary-button press on a chunk that is not the first one (the
    first chunk carrying the id sits at an index above 0) returns with the
    default prevented and a session holding the id, the pointer x of the
    press and the chunk's current gap, both in the ref and in the React
    state; both document listeners are registered, an animation frame is
    requested if none was, and neither the chunk list nor the scroll
    container changes. *)
Theorem press_starts_session (cid : string) (e : MouseEvent) (s : State)
    (n : nat) (chunk : AudioChunkData) :
  button e = 0%Z → (0 < n)%nat →
  chunks s !! n = Some chunk → id chunk = cid →
  Forall (λ c, id c ≠ cid) (take n (chunks s)) →
  ∃ s', onChunkMouseDown cid e s = Returned true s'
    ∧ dragRef s' = Some (mkDrag cid (clientX e) (gapBefore chunk))
    ∧ dragState s' = dragRef s'
    ∧ mouseXRef s' = clientX e
    ∧ mousemoveListener s' = true ∧ mouseupListener s' = true
    ∧ chunks s' = chunks s
    ∧ scrollContainer s' = scrollContainer s
    ∧ (scrollRafRef s = None →
         scrollRafRef s' = Some (nextFrameId s)
         ∧ frameRequests s' = frameRequests s ++ [nextFrameId s]
         ∧ nextFrameId s' = S (nextFrameId s))
    ∧ (is_Some (scrollRafRef s) →
         scrollRafRef s' = scrollRafRef s
         ∧ frameRequests s' = frameRequests s).
Proof.
  intros Hbutton Hn Hchunk Hid Hbefore.
  exists (pressed cid e chunk s).
  split; [by apply (onChunkMouseDown_accept cid e s n chunk)|].
  destruct (pressed_fields cid e chunk s) as (-> & -> & -> & -> & -> & -> & ->).
  repeat (split; [done|]).
  unfold pressed, startAutoScroll. simpl. split.
  - by intros ->.
  - intros [h Hh]. by rewrite Hh.
Qed.

Lemma press_starts_session_witness :
  ∃ s', onChunkMouseDown "c" samplePress sampleIdleGapped = Returned true s'
        ∧ dragRef s' = Some (mkDrag "c" (int 500) (int 10)).
Proof.
  destruct (press_starts_session "c" samplePress sampleIdleGapped 2
              (mkChunk "c" "C" "c.mp3" (int 1) (int 10)))
    as (s' & Hs' & Hdrag & _).
  - reflexivity.
  - lia.
  - reflexivity.
  - reflexivity.
  - repeat constructor; discriminate.
  - exists s'. split; [exact Hs'|exact Hdrag].
Defined.

(** X2.  [onChunkMouseDown] always returns: the element it reads at the
    index found is always there.  It calls [preventDefault] exactly for a
    primary-button press, leaves the whole state as it is for any other
    button, and never changes the chunk list or the scroll container. *)
Theorem press_always_returns (cid : string) (e : MouseEvent) (s : State) :
  ∃ prevented s',
    onChunkMouseDown cid e s = Returned prevented s'
    ∧ (prevented = true ↔ button e = 0%Z)
    ∧ (button e ≠ 0%Z → s' = s)
    ∧ chunks s' = chunks s
    ∧ scrollContainer s' = scrollContainer s.
Proof.
  destruct (onChunkMouseDown cid e s) as [prevented s'|] eqn:Hdown;
    [|by destruct (onChunkMouseDown_returns cid e s)].
  exists prevented, s'. split; [done|].
  assert (prevented = true ↔ button e = 0%Z) as Hprevented.
  { revert Hdown. unfold onChunkMouseDown.
    repeat case_decide; try (intros [= <- _]; split; (done || lia)).
    destruct (chunks s !! _); [|done]. by intros [= <- _]. }
  split; [done|].
  destruct (onChunkMouseDown_inv _ _ _ _ _ Hdown)
    as [->|(Hbutton & n & chunk & _ & _ & _ & _ & ->)]; [done|].
  destruct (pressed_fields cid e chunk s) as (-> & _ & _ & _ & -> & _).
  by split.
Qed.

Lemma regap_regap (cid : string) (g1 g2 : number) (c : AudioChunkData) :
  regap cid g2 (regap cid g1 c) = regap cid g2 c.
Proof.
  unfold regap. destruct (decide (id c = cid)) as [Hid|Hid]; simpl.
  - by rewrite decide_True.
  - by rewrite decide_False.
Qed.

(** X3.  Pointer moves overwrite each other instead of adding up: after
    two moves the state is the one a single move to the second position
    gives, whatever the first position was. *)
Theorem moves_overwrite (s : State) (x1 x2 : number) :
  handleMouseMove x2 (handleMouseMove x1 s) = handleMouseMove x2 s.
Proof.
  unfold handleMouseMove at 2 3.
  destruct (dragRef s) as [drag|] eqn:Hdrag.
  - unfold handleMouseMove. cbn [dragRef set_chunks set_mouseXRef].
    rewrite Hdrag. unfold set_chunks, set_mouseXRef. simpl.
    f_equal. rewrite <-list_fmap_compose. apply list_fmap_ext.
    intros i c _.
    apply (regap_regap (chunkId drag)
             (Math_max 0 (initialGapBefore drag + (x1 - startMouseX drag)))
             (Math_max 0 (initialGapBefore drag + (x2 - startMouseX drag)))).
  - unfold handleMouseMove. by rewrite Hdrag.
Qed.

Lemma handleMouseMove_chunks (s : State) (drag : DragState) (x : number) :
  dragRef s = Some drag →
  chunks (handleMouseMove x s)
  = map (regap (chunkId drag)
           (Math_max 0 (initialGapBefore drag + (x - startMouseX drag))))
        (chunks s)
  ∧ dragRef (handleMouseMove x s) = Some drag.
Proof. intros Hdrag. unfold handleMouseMove. by rewrite Hdrag. Qed.


Lemma regap_same_gap (c : AudioChunkData) :
  regap (id c) (gapBefore c) c = c.
Proof. unfold regap. rewrite decide_True by done. by destruct c. Qed.

(** With distinct ids, only the chunk at the position of the id can
    carry it. *)
Lemma NoDup_id_elsewhere (l : list AudioChunkData) (i : nat)
    (c : AudioChunkData) :
  NoDup (map id l) → l !! i = Some c →
  ∀ (j : nat) (c' : AudioChunkData),
    l !! j = Some c' → id c' = id c → j = i.
Proof.
  intros Hnodup Hc j c' Hc' Hid.
  apply (NoDup_lookup (map id l) j i (id c) Hnodup).
  - rewrite list_lookup_fmap, Hc'. simpl. by rewrite Hid.
  - by rewrite list_lookup_fmap, Hc.
Qed.



Lemma Math_max_back (g x : number) : 0 ≤ g → Math_max 0 (g + (x - x)) = g.
Proof.
  intros Hg. replace (g + (x - x)) with g by (unfold number in *; ring).
  unfold Math_max. case_decide as Hlt; [done|].
  apply Qcle_antisym; [done|by apply Qcnot_lt_le].
Qed.

(** Writing back the gap a chunk already has changes nothing, when ids
    are distinct. *)
Lemma regap_identity (l : list AudioChunkData) (n : nat)
    (chunk : AudioChunkData) :
  NoDup (map id l) → l !! n = Some chunk →
  map (regap (id chunk) (gapBefore chunk)) l = l.
Proof.
  intros Hnodup Hchunk. apply list_eq. intros j.
  rewrite list_lookup_fmap. destruct (l !! j) as [c|] eqn:Hc; [|done].
  simpl. f_equal. unfold regap. case_decide as Hid; [|done].
  pose proof (NoDup_id_elsewhere l n chunk Hnodup Hchunk j c Hc Hid) as ->.
  assert (c = chunk) as -> by congruence. by destruct chunk.
Qed.

(** X4.  Drag and return.  From a state without a session, with distinct
    chunk ids and no negative gap, press any chunk, move the pointer
    anywhere and then back to the x of the press: the chunk list is again
    exactly the list before the press. *)
Theorem drag_back_restores (s s' : State) (cid : string) (e : MouseEvent)
    (prevented : bool) (x : number) :
  dragRef s = None →
  NoDup (map id (chunks s)) →
  Forall (λ c, 0 ≤ gapBefore c) (chunks s) →
  onChunkMouseDown cid e s = Returned prevented s' →
  chunks (handleMouseMove (clientX e) (handleMouseMove x s')) = chunks s.
Proof.
  intros Hidle Hnodup Hgaps Hdown.
  destruct (onChunkMouseDown_inv _ _ _ _ _ Hdown)
    as [->|(_ & n & chunk & _ & Hchunk & Hid & _ & ->)].
  - unfold handleMouseMove. by rewrite !Hidle.
  - destruct (pressed_fields cid e chunk s) as (Hchunks & Hdrag & _).
    destruct (handleMouseMove_chunks _ _ x Hdrag) as [Hmoved Hdrag'].
    destruct (handleMouseMove_chunks _ _ (clientX e) Hdrag') as [-> _].
    rewrite Hmoved, Hchunks. cbn [chunkId initialGapBefore startMouseX].
    rewrite Math_max_back
      by (rewrite Forall_lookup in Hgaps; by eapply Hgaps).
    rewrite <-list_fmap_compose.
    rewrite <-(regap_identity (chunks s) n chunk Hnodup Hchunk) at 2.
    rewrite Hid. apply list_fmap_ext. intros i c _. simpl.
    apply regap_regap.
Qed.

Lemma drag_back_restores_witness :
  chunks (handleMouseMove (clientX samplePress)
            (handleMouseMove (int 120) sampleHeld))
  = chunks sampleIdleGapped.
Proof.
  apply (drag_back_restores sampleIdleGapped sampleHeld "c" samplePress true).
  - reflexivity.
  - by_compute.
  - repeat constructor; by_compute.
  - reflexivity.
Defined.



(** X6.  A click without movement.  From an idle controller with no
    animation frame pending, a press followed by the release leaves the
    controller idle again with no frame pending, and the chunk list and
    the scroll container as they were, whether or not the press was
    accepted. *)
Theorem click_changes_nothing (s s' : State) (cid : string) (e : MouseEvent)
    (prevented : bool) :
  Idle s → frameRequests s = [] →
  onChunkMouseDown cid e s = Returned prevented s' →
  Idle (handleMouseUp s')
  ∧ frameRequests (handleMouseUp s') = []
  ∧ chunks (handleMouseUp s') = chunks s
  ∧ scrollContainer (handleMouseUp s') = scrollContainer s.
Proof.
  intros (Href & Hstate & Hmove & Hup & Hraf) Hqueue Hdown.
  destruct (onChunkMouseDown_inv _ _ _ _ _ Hdown)
    as [->|(_ & n & chunk & _ & _ & _ & _ & ->)].
  - unfold handleMouseUp, stopAutoScroll, Idle. simpl. by rewrite Hraf.
  - unfold pressed, startAutoScroll. simpl. rewrite Hraf.
    unfold handleMouseUp, stopAutoScroll, Idle, cancelAnimationFrame. simpl.
    rewrite Hqueue. simpl.
    by rewrite filter_cons_False by (by intros []).
Qed.

Lemma click_changes_nothing_witness :
  Idle (handleMouseUp sampleHeld)
  ∧ frameRequests (handleMouseUp sampleHeld) = []
  ∧ chunks (handleMouseUp sampleHeld) = chunks sampleIdleGapped
  ∧ scrollContainer (handleMouseUp sampleHeld)
    = scrollContainer sampleIdleGapped.
Proof.
  apply (click_changes_nothing sampleIdleGapped sampleHeld "c" samplePress
           true).
  - repeat split.
  - reflexivity.
  - reflexivity.
Defined.

Lemma filter_fresh_handle (queue : list nat) (h : nat) :
  Forall (λ k, (k < h)%nat) queue →
  filter (λ k, k ≠ h) (queue ++ [h]) = queue.
Proof.
  intros Hfresh. rewrite filter_app. simpl.
  replace (filter (λ k, k ≠ h) [h]) with (@nil nat).
  - rewrite app_nil_r. induction Hfresh as [|k queue Hk _ IH]; [done|].
    rewrite filter_cons_True by lia. by rewrite IH.
  - symmetry. by rewrite filter_cons_False by (by intros []).
Qed.

(** X7.  Arming and disarming auto-scroll.  When no frame handle is held
    and the pending handles are older than the next one to be issued,
    starting and then stopping auto-scroll gives back the state it started
    from, up to the handle counter: the request made is the one cancelled.
    Starting twice requests one frame only, and stopping twice is stopping
    once. *)
Theorem autoScroll_start_stop (s : State) :
  scrollRafRef s = None →
  Forall (λ h, (h < nextFrameId s)%nat) (frameRequests s) →
  stopAutoScroll (startAutoScroll s) = set_nextFrameId (S (nextFrameId s)) s
  ∧ startAutoScroll (startAutoScroll s) = startAutoScroll s
  ∧ stopAutoScroll (stopAutoScroll s) = stopAutoScroll s
  ∧ frameRequests (startAutoScroll s) = frameRequests s ++ [nextFrameId s].
Proof.
  intros Hraf Hfresh. destruct s as [cs st ref raf mx el mm mu queue next].
  simpl in *. subst raf.
  unfold stopAutoScroll, startAutoScroll, cancelAnimationFrame,
    requestAnimationFrame, set_nextFrameId, set_frameRequests,
    set_scrollRafRef. simpl.
  by rewrite filter_fresh_handle.
Qed.

Lemma autoScroll_start_stop_witness :
  stopAutoScroll (startAutoScroll sampleIdleGapped)
  = set_nextFrameId 2 sampleIdleGapped.
Proof.
  apply (autoScroll_start_stop sampleIdleGapped).
  - reflexivity.
  - constructor.
Defined.


(** ** What every reachable state of the component satisfies *)

Lemma controllerConsistent_pressed (cid : string) (e : MouseEvent)
    (chunk : AudioChunkData) (s : State) :
  controllerConsistent s → controllerConsistent (pressed cid e chunk s).
Proof.
  intros (Hmirror & Hidle & Hheld & Hqueue).
  unfold controllerConsistent, pressed, startAutoScroll.
  destruct (scrollRafRef s) as [h|] eqn:Hraf; simpl; rewrite Hraf; simpl.
  - rewrite Hraf. split; [done|]. split; [by intros [=]|].
    split; [by intros _; eauto|done].
  - split; [done|]. split; [by intros [=]|].
    split; [by intros _; eauto|].
    destruct Hqueue as [->|(h & _ & ?)]; [|done].
    right. by eexists.
Qed.

Lemma controllerConsistent_runFrame (s : State) :
  controllerConsistent s → controllerConsistent (runFrame s).
Proof.
  intros Hconsistent. unfold runFrame.
  destruct (frameRequests s) as [|h rest] eqn:Hrequests; [done|].
  destruct Hconsistent as (Hmirror & Hidle & Hheld & Hqueue).
  rewrite Hrequests in Hidle, Hqueue.
  destruct Hqueue as [|(h' & [= <- ->] & Hraf)]; [done|].
  destruct (dragRef s) as [session|] eqn:Hsession;
    [|by destruct (Hidle eq_refl) as (_ & _ & _ & ?)].
  unfold autoScrollFn. cbn [scrollContainer dragRef set_frameRequests].
  rewrite Hsession.
  destruct (Hheld (mk_is_Some _ _ eq_refl)) as (Hmove & Hup & _).
  destruct (scrollContainer s) as [el|];
    unfold controllerConsistent; simpl; rewrite ?Hsession, ?Hraf;
    (split; [done|]); (split; [by intros [=]|]);
    (split; [by intros _; eauto|]); [right|left]; eauto.
Qed.

Lemma controllerConsistent_handleMouseUp (s : State) :
  controllerConsistent s → controllerConsistent (handleMouseUp s).
Proof.
  destruct s as [cs st ref raf mx el mm mu queue next].
  intros (Hmirror & Hidle & Hheld & Hqueue). simpl in *.
  unfold handleMouseUp, stopAutoScroll, cancelAnimationFrame,
    controllerConsistent.
  destruct raf as [h|]; simpl.
  - assert (filter (λ k, k ≠ h) queue = []) as ->.
    { destruct Hqueue as [->|(h' & -> & [= ->])]; [done|].
      by rewrite filter_cons_False by (by intros []). }
    split; [done|]. split; [done|]. split; [by intros []|by left].
  - assert (queue = []) as -> by (by destruct Hqueue as [|(h & _ & ?)]).
    split; [done|]. split; [done|]. split; [by intros []|by left].
Qed.

Section Consistency.
Variable BASE_URL : string.
Variable loadAudioDuration : string → Promise number.

Lemma controllerConsistent_step (app app' : App) :
  step BASE_URL loadAudioDuration app app' →
  controllerConsistent (drag app) → controllerConsistent (drag app').
Proof.
  intros Hstep Hconsistent.
  destruct Hstep as [app es Hl Hes|app cid e prevented s' Hdown|app x _
                    |app _|app|app value _|app el deltaY _|app el Hl].
  - destruct (loadDurations_shape _ _ _ Hes) as (msgs & value & -> & Hmsgs).
    by rewrite runEffects_load.
  - destruct (onChunkMouseDown_inv _ _ _ _ _ Hdown)
      as [->|(_ & n & chunk & _ & _ & _ & _ & ->)]; [done|].
    by apply controllerConsistent_pressed.
  - cbn [drag with_drag]. unfold handleMouseMove.
    by destruct (dragRef (drag app)) eqn:Hsession.
  - by apply controllerConsistent_handleMouseUp.
  - by apply controllerConsistent_runFrame.
  - done.
  - done.
  - done.
Qed.

Lemma reachable_controllerConsistent (app : App) :
  reachable BASE_URL loadAudioDuration app → controllerConsistent (drag app).
Proof.
  unfold reachable. intros Hrun.
  eapply (rtc_ind_r (λ a, controllerConsistent (drag a))); [| |exact Hrun].
  - unfold controllerConsistent. simpl.
    split; [done|]. split; [done|]. split; [by intros []|by left].
  - intros before after _ Hstep Hbefore.
    by eapply controllerConsistent_step.
Qed.
End Consistency.

(** X8.  In every state the component can reach: the [dragState] shown to
    the renderer equals the session in the ref; each document listener is
    registered exactly while a session is held; at most one animation
    frame is pending, and a pending handle is the one in [scrollRafRef];
    with no session held no frame is pending and no handle is kept, so a
    frame or a pointer move then changes nothing (the auto-scroll loop
    does not outlive the drag). *)
Theorem controller_bookkeeping (BASE_URL : string)
    (loadAudioDuration : string → Promise number) (app : App) :
  reachable BASE_URL loadAudioDuration app →
  let s := drag app in
  dragState s = dragRef s
  ∧ (mousemoveListener s = true ↔ is_Some (dragRef s))
  ∧ (mouseupListener s = true ↔ is_Some (dragRef s))
  ∧ (length (frameRequests s) ≤ 1)%nat
  ∧ (∀ h, h ∈ frameRequests s → scrollRafRef s = Some h)
  ∧ (dragRef s = None →
       scrollRafRef s = None ∧ frameRequests s = []
       ∧ runFrame s = s ∧ ∀ x, handleMouseMove x s = s).
Proof.
  intros (Hmirror & Hidle & Hheld & Hqueue)%reachable_controllerConsistent s.
  fold s in Hmirror, Hidle, Hheld, Hqueue.
  assert (∀ b : bool, b = true ↔ ¬ b = false) as Hbool by (by intros []).
  split; [done|]. split; [|split; [|split; [|split]]].
  - split; [|by intros (? & _)%Hheld].
    intros Hmove. destruct (dragRef s) eqn:Hsession; [done|].
    destruct (Hidle eq_refl) as (? & _). congruence.
  - split; [|by intros (_ & ? & _)%Hheld].
    intros Hup. destruct (dragRef s) eqn:Hsession; [done|].
    destruct (Hidle eq_refl) as (_ & ? & _). congruence.
  - destruct Hqueue as [->|(h & -> & _)]; simpl; lia.
  - intros h Hh. destruct Hqueue as [Hnil|(h' & Hone & Hraf)].
    + rewrite Hnil in Hh. by apply elem_of_nil in Hh.
    + rewrite Hone in Hh. by apply list_elem_of_singleton in Hh as ->.
  - intros Hsession. destruct (Hidle Hsession) as (_ & _ & Hraf & Hnil).
    split; [done|]. split; [done|]. split.
    + unfold runFrame. by rewrite Hnil.
    + intros x. unfold handleMouseMove. by rewrite Hsession.
Qed.

Lemma controller_bookkeeping_witness :
  reachable "" sampleLoad sampleMoved
  ∧ dragState (drag sampleMoved) = dragRef (drag sampleMoved).
Proof.
  split; [exact sampleMoved_reachable|].
  apply (controller_bookkeeping "" sampleLoad sampleMoved).
  exact sampleMoved_reachable.
Defined.

Lemma regap_identity_fields (cid : string) (g : number)
    (l : list AudioChunkData) :
  map id (map (regap cid g) l) = map id l
  ∧ map label (map (regap cid g) l) = map label l
  ∧ map audioUrl (map (regap cid g) l) = map audioUrl l
  ∧ map durationSeconds (map (regap cid g) l) = map durationSeconds l.
Proof.
  induction l as [|c l (IH1 & IH2 & IH3 & IH4)]; [done|]. simpl.
  rewrite IH1, IH2, IH3, IH4. unfold regap. by case_decide.
Qed.

Lemma regap_nonneg (cid : string) (g : number) (l : list AudioChunkData) :
  0 ≤ g → Forall (λ c, 0 ≤ gapBefore c) l →
  Forall (λ c, 0 ≤ gapBefore c) (map (regap cid g) l).
Proof.
  intros Hg. induction 1 as [|c l Hc _ IH]; simpl; constructor; [|done].
  unfold regap. by case_decide.
Qed.

Section Shape.
Variable BASE_URL : string.
Variable loadAudioDuration : string → Promise number.

Lemma withDuration_identity (sources : list ChunkSource)
    (loaded : list AudioChunkData) :
  Forall2 (λ c v, ∃ dur, v = withDuration dur c) sources loaded →
  map id loaded = map src_id sources
  ∧ map label loaded = map src_label sources
  ∧ map audioUrl loaded = map src_audioUrl sources.
Proof.
  induction 1 as [|c v cs vs [dur ->] _ (IH1 & IH2 & IH3)]; [done|].
  simpl. by rewrite IH1, IH2, IH3.
Qed.

Lemma loadDurations_identity (cancelled : bool) (es : list Effect)
    (value : list AudioChunkData) :
  loadDurations BASE_URL loadAudioDuration cancelled = Some es →
  SetChunks value ∈ es →
  demoIdentity BASE_URL value.
Proof.
  unfold loadDurations.
  destruct (Promise_all _) as [loaded| |] eqn:Hall; [| |done].
  - intros [= <-]. destruct cancelled; [by intros ?%elem_of_nil|].
    rewrite !elem_of_cons, elem_of_nil. intros [[= ->]|[|[]]]; [|done].
    unfold Promise_all in Hall.
    destruct (existsb _ _); [done|].
    destruct (all_values _) as [vs|] eqn:Hvs; [|done].
    injection Hall as ->.
    apply withDuration_identity. by eapply all_values_loadOne.
  - intros [= <-]. rewrite elem_of_cons. intros [|Hin]; [done|].
    destruct cancelled; [by apply elem_of_nil in Hin|].
    revert Hin. rewrite !elem_of_cons, elem_of_nil.
    by intros [[= ->]|[|[]]].
Qed.

Lemma timelineShape_step (app app' : App) :
  step BASE_URL loadAudioDuration app app' →
  timelineShape BASE_URL app → timelineShape BASE_URL app'.
Proof.
  intros Hstep (Hloading & Hloaded & Hgaps & Hzoom).
  destruct Hstep as [app es Hl Hes|app cid e prevented s' Hdown|app x _
                    |app _|app|app value Hvalue|app el deltaY _|app el Hl].
  - destruct (loadDurations_shape _ _ _ Hes) as (msgs & value & Heq & Hmsgs).
    assert (SetChunks value ∈ es) as Hin.
    { rewrite Heq. apply elem_of_app. right. constructor 1. }
    rewrite Heq, runEffects_load by done.
    split; [done|]. split; [|split; [|done]]; simpl.
    + intros _. by eapply loadDurations_identity.
    + eapply Forall_impl; [by eapply loadDurations_gaps|].
      intros c ->. apply Qcle_refl.
  - destruct (onChunkMouseDown_inv _ _ _ _ _ Hdown)
      as [->|(_ & n & chunk & _ & _ & _ & _ & ->)]; [done|].
    destruct (pressed_fields cid e chunk (drag app)) as (Hchunks & _).
    unfold timelineShape. cbn [drag with_drag loading pixelsPerSecond].
    by rewrite Hchunks.
  - unfold timelineShape. cbn [drag with_drag loading pixelsPerSecond].
    destruct (dragRef (drag app)) as [session|] eqn:Hsession.
    + destruct (handleMouseMove_chunks _ _ x Hsession) as [-> _].
      destruct (regap_identity_fields (chunkId session)
                  (Math_max 0 (initialGapBefore session
                               + (x - startMouseX session)))
                  (chunks (drag app))) as (Hid & Hlabel & Hurl & _).
      split; [|split; [|split; [|done]]].
      * intros Hl. by rewrite (Hloading Hl).
      * intros Hl. destruct (Hloaded Hl) as (? & ? & ?).
        unfold demoIdentity. by rewrite Hid, Hlabel, Hurl.
      * apply regap_nonneg; [|done].
        by destruct (Math_max_spec 0
                       (initialGapBefore session
                        + (x - startMouseX session))) as (? & _).
    + unfold handleMouseMove. by rewrite Hsession.
  - destruct (handleMouseUp_frame (drag app)) as [Hchunks _].
    unfold timelineShape. cbn [drag with_drag loading pixelsPerSecond].
    by rewrite Hchunks.
  - destruct (runFrame_frame (drag app)) as [Hchunks _].
    unfold timelineShape. cbn [drag with_drag loading pixelsPerSecond].
    by rewrite Hchunks.
  - done.
  - done.
  - done.
Qed.

Lemma reachable_timelineShape (app : App) :
  reachable BASE_URL loadAudioDuration app → timelineShape BASE_URL app.
Proof.
  unfold reachable. intros Hrun.
  eapply (rtc_ind_r (λ a, timelineShape BASE_URL a)); [| |exact Hrun].
  - split; [done|]. split; [done|]. split; [constructor|].
    split; by_compute.
  - intros before after _ Hstep Hbefore. by eapply timelineShape_step.
Qed.

(** Once loaded, no event changes the durations (nor the number of
    chunks). *)
Lemma step_keeps_durations (app app' : App) :
  step BASE_URL loadAudioDuration app app' →
  loading app = false →
  map durationSeconds (chunks (drag app'))
  = map durationSeconds (chunks (drag app)).
Proof.
  intros Hstep Hloaded.
  destruct Hstep as [app es Hl Hes|app cid e prevented s' Hdown|app x _
                    |app _|app|app value Hvalue|app el deltaY _|app el Hl];
    try done.
  - congruence.
  - destruct (onChunkMouseDown_inv _ _ _ _ _ Hdown)
      as [->|(_ & n & chunk & _ & _ & _ & _ & ->)]; [done|].
    cbn [drag with_drag].
    by destruct (pressed_fields cid e chunk (drag app)) as (-> & _).
  - cbn [drag with_drag].
    destruct (dragRef (drag app)) as [session|] eqn:Hsession.
    + destruct (handleMouseMove_chunks _ _ x Hsession) as [-> _].
      apply regap_identity_fields.
    + unfold handleMouseMove. by rewrite Hsession.
  - cbn [drag with_drag].
    by destruct (handleMouseUp_frame (drag app)) as [-> _].
  - cbn [drag with_drag].
    by destruct (runFrame_frame (drag app)) as [-> _].
Qed.
End Shape.

(** X9.  In every state the component can reach: while loading there are
    no chunks; once loaded there are exactly the five demo chunks, with
    ids a, b, c, d, e in that order (so the ids are distinct) and the
    labels and URLs of the source list; no gap is ever negative; the zoom
    factor stays within 20 and 150 and hence is positive; and after the
    load no event changes a duration. *)
Theorem timeline_data_invariant (BASE_URL : string)
    (loadAudioDuration : string → Promise number) (app : App) :
  reachable BASE_URL loadAudioDuration app →
  let cs := chunks (drag app) in
  (loading app = true → cs = [])
  ∧ (loading app = false →
       map id cs = ["a"; "b"; "c"; "d"; "e"]
       ∧ map label cs
         = ["Arrow"; "Clash Royale"; "Goblins"; "Mini Pekka"; "Rocket"]
       ∧ map audioUrl cs = map src_audioUrl (DEMO_CHUNKS BASE_URL)
       ∧ length cs = 5%nat)
  ∧ NoDup (map id cs)
  ∧ Forall (λ c, 0 ≤ gapBefore c) cs
  ∧ MIN_PIXELS_PER_SECOND ≤ pixelsPerSecond app ≤ MAX_PIXELS_PER_SECOND
  ∧ 0 < pixelsPerSecond app
  ∧ (∀ app', step BASE_URL loadAudioDuration app app' →
       loading app = false →
       map durationSeconds (chunks (drag app')) = map durationSeconds cs).
Proof.
  intros Hrun cs.
  destruct (reachable_timelineShape _ _ _ Hrun)
    as (Hloading & Hloaded & Hgaps & Hzoom).
  fold cs in Hloading, Hloaded, Hgaps.
  split; [done|]. split; [|split; [|split; [done|split; [done|split]]]].
  - intros Hl. destruct (Hloaded Hl) as (Hid & Hlabel & Hurl).
    split; [done|]. split; [done|]. split; [done|].
    by rewrite <-(length_map id), Hid.
  - destruct (loading app) eqn:Hl.
    + rewrite Hloading by done. constructor.
    + destruct (Hloaded eq_refl) as (-> & _). by_compute.
  - apply Qclt_le_trans with MIN_PIXELS_PER_SECOND; [by_compute|].
    by destruct Hzoom.
  - intros app' Hstep Hl. by eapply step_keeps_durations.
Qed.

Lemma timeline_data_invariant_witness :
  reachable "" sampleLoad sampleMoved
  ∧ NoDup (map id (chunks (drag sampleMoved))).
Proof.
  split; [exact sampleMoved_reachable|].
  apply (timeline_data_invariant "" sampleLoad sampleMoved).
  exact sampleMoved_reachable.
Defined.

(** ** One run of the auto-scroll function *)

(** X10.  Whatever the pointer position, one run of the auto-scroll
    function assigns to [scrollLeft] its old value plus a whole number of
    pixels between -12 and 12, and leaves the bounding rectangle, the
    chunks, the session and the stored pointer x untouched.  While a
    session is held it requests exactly one further animation frame and
    stores its handle, so the loop keeps running for the whole drag. *)
Theorem autoScroll_step_bounded (s : State) (el : Container) :
  scrollContainer s = Some el →
  ∃ (el' : Container) (k : Z),
    scrollContainer (autoScrollFn s) = Some el'
    ∧ scrollLeft el' = scrollLeft el + int k ∧ (-12 ≤ k ≤ 12)%Z
    ∧ rect_left el' = rect_left el ∧ rect_right el' = rect_right el
    ∧ chunks (autoScrollFn s) = chunks s
    ∧ dragRef (autoScrollFn s) = dragRef s
    ∧ mouseXRef (autoScrollFn s) = mouseXRef s
    ∧ (is_Some (dragRef s) →
         frameRequests (autoScrollFn s) = frameRequests s ++ [nextFrameId s]
         ∧ scrollRafRef (autoScrollFn s) = Some (nextFrameId s))
    ∧ (dragRef s = None → autoScrollFn s = s).
Proof.
  intros Hel. unfold autoScrollFn. rewrite Hel.
  assert (scrollLeft el = scrollLeft el + int 0) as Hzero.
  { unfold int. rewrite Z2Qc_inj_0. by rewrite Qcplus_0_r. }
  destruct (dragRef s) as [session|] eqn:Hsession.
  - set (dr := rect_right el - mouseXRef s).
    set (dl := mouseXRef s - rect_left el).
    change (Math_ceil (SCROLL_SPEED * (1 - dr / EDGE_THRESHOLD)))
      with (specRampSpeed dr).
    change (Math_ceil (SCROLL_SPEED * (1 - dl / EDGE_THRESHOLD)))
      with (specRampSpeed dl).
    unfold EDGE_THRESHOLD.
    destruct (decide (dr < int 80 ∧ 0 < dr)) as [[Hlt Hpos]|_];
      [|destruct (decide (dl < int 80 ∧ 0 < dl)) as [[Hlt Hpos]|_]].
    + pose proof (specRampSpeed_range dr Hpos Hlt).
      eexists _, (specRampSpeed dr). simpl.
      repeat split; try done; lia.
    + pose proof (specRampSpeed_range dl Hpos Hlt).
      eexists _, (- specRampSpeed dl)%Z. simpl.
      repeat split; try done; try lia.
      unfold int. by rewrite Z2Qc_inj_opp.
    + eexists _, 0%Z. simpl.
      repeat split; try done; lia.
  - exists el, 0%Z. rewrite Hel.
    repeat split; try done; try lia.
Qed.

Lemma autoScroll_step_bounded_witness :
  ∃ (el' : Container) (k : Z),
    scrollContainer (autoScrollFn sampleAtEdge) = Some el'
    ∧ scrollLeft el' = scrollLeft sampleContainer + int k
    ∧ (-12 ≤ k ≤ 12)%Z.
Proof.
  destruct (autoScroll_step_bounded sampleAtEdge sampleContainer eq_refl)
    as (el' & k & H1 & H2 & H3 & _).
  exists el', k. split; [exact H1|]. split; [exact H2|exact H3].
Defined.

(** ** Outcomes of the start-up load *)

Section LoadOutcomes.
Variable BASE_URL : string.
Variable loadAudioDuration : string → Promise number.

Lemma all_values_fulfilled (sources : list ChunkSource) :
  Forall (λ c, ∃ dur, loadAudioDuration (src_audioUrl c) = Fulfilled dur)
         sources →
  ∃ loaded,
    all_values (map (loadOne loadAudioDuration) sources) = Some loaded
    ∧ existsb is_rejected (map (loadOne loadAudioDuration) sources) = false
    ∧ Forall2 (λ c v, ∃ dur,
                 loadAudioDuration (src_audioUrl c) = Fulfilled dur
                 ∧ v = withDuration dur c) sources loaded.
Proof.
  induction 1 as [|c sources [dur Hdur] _ (loaded & Hall & Hnone & Hpairs)].
  - exists []. repeat split. constructor.
  - exists (withDuration dur c :: loaded). simpl.
    unfold loadOne at 1 3. rewrite Hdur. simpl. rewrite Hall, Hnone.
    repeat split. constructor; [by exists dur|done].
Qed.

Lemma all_values_pending (sources : list ChunkSource) (c : ChunkSource) :
  c ∈ sources → loadAudioDuration (src_audioUrl c) = Pending →
  all_values (map (loadOne loadAudioDuration) sources) = None.
Proof.
  intros Hin Hpending.
  induction sources as [|c0 sources IH]; [by apply elem_of_nil in Hin|].
  simpl. apply elem_of_cons in Hin as [<-|Hin].
  - unfold loadOne at 1. by rewrite Hpending.
  - rewrite IH by done. by destruct (loadOne _ c0).
Qed.

Lemma existsb_rejected_false (sources : list ChunkSource) :
  Forall (λ c, loadAudioDuration (src_audioUrl c) ≠ Rejected) sources →
  existsb is_rejected (map (loadOne loadAudioDuration) sources) = false.
Proof.
  induction 1 as [|c sources Hc _ IH]; [done|]. simpl. rewrite IH.
  unfold loadOne. by destruct (loadAudioDuration (src_audioUrl c)).
Qed.

End LoadOutcomes.

(** X11.  When the duration of every demo file loads, the asynchronous
    body (component still mounted) performs exactly two effects: it
    installs the five demo chunks, in source order, each with the
    duration its own file reported, and sets [loading] to [false];
    nothing is logged. *)
Theorem load_success (BASE_URL : string)
    (loadAudioDuration : string → Promise number) (app : App) :
  Forall (λ c, ∃ dur, loadAudioDuration (src_audioUrl c) = Fulfilled dur)
         (DEMO_CHUNKS BASE_URL) →
  ∃ loaded,
    loadDurations BASE_URL loadAudioDuration false
    = Some [SetChunks loaded; SetLoading false]
    ∧ Forall2 (λ c v, ∃ dur,
                 loadAudioDuration (src_audioUrl c) = Fulfilled dur
                 ∧ v = withDuration dur c) (DEMO_CHUNKS BASE_URL) loaded
    ∧ chunks (drag (runEffects [SetChunks loaded; SetLoading false] app))
      = loaded
    ∧ loading (runEffects [SetChunks loaded; SetLoading false] app) = false.
Proof.
  intros Hall.
  destruct (all_values_fulfilled loadAudioDuration _ Hall)
    as (loaded & Hvalues & Hnone & Hpairs).
  exists loaded. split; [|by split].
  unfold loadDurations, Promise_all. by rewrite Hnone, Hvalues.
Qed.

Lemma load_success_witness :
  ∃ loaded,
    loadDurations "" sampleLoad false
    = Some [SetChunks loaded; SetLoading false]
    ∧ map durationSeconds loaded = [int 2; int 2; int 2; int 2; int 2].
Proof.
  destruct (load_success "" sampleLoad mounted) as (loaded & Hes & Hpairs & _).
  - repeat constructor; by exists (int 2).
  - exists loaded. split; [exact Hes|].
    injection Hes as <-. reflexivity.
Defined.

(** X12.  When no load is rejected but the load of some demo file never
    settles, the asynchronous body never resumes; the component then
    stays in its loading state with an empty chunk list in every state it
    can reach. *)
Theorem load_pending_stays_loading (BASE_URL : string)
    (loadAudioDuration : string → Promise number) (c : ChunkSource) :
  c ∈ DEMO_CHUNKS BASE_URL →
  loadAudioDuration (src_audioUrl c) = Pending →
  Forall (λ c', loadAudioDuration (src_audioUrl c') ≠ Rejected)
         (DEMO_CHUNKS BASE_URL) →
  (∀ cancelled, loadDurations BASE_URL loadAudioDuration cancelled = None)
  ∧ ∀ app, reachable BASE_URL loadAudioDuration app →
      loading app = true ∧ chunks (drag app) = [].
Proof.
  intros Hin Hpending Hnone.
  assert (∀ cancelled,
            loadDurations BASE_URL loadAudioDuration cancelled = None)
    as Hnever.
  { intros cancelled. unfold loadDurations, Promise_all.
    rewrite existsb_rejected_false by done.
    by rewrite (all_values_pending _ _ c). }
  split; [done|]. intros app Hrun.
  assert (loading app = true) as Hloading.
  { unfold reachable in Hrun.
    eapply (rtc_ind_r (λ a, loading a = true)); [| |exact Hrun]; [done|].
    intros before after _ Hstep Hbefore.
    destruct Hstep; simpl; try done; congruence. }
  split; [done|].
  by destruct (reachable_timelineShape _ _ _ Hrun) as (-> & _).
Qed.

(** A load environment in which the first file never settles. *)
Lemma load_pending_stays_loading_witness :
  loadDurations ""
    (λ url, if decide (url = "/sounds/arrow.mp3") then Pending
            else Fulfilled (int 2)) false
  = None.
Proof.
  apply (load_pending_stays_loading ""
           (λ url, if decide (url = "/sounds/arrow.mp3") then Pending
                   else Fulfilled (int 2))
           (mkSource "a" "Arrow" "/sounds/arrow.mp3" 0)).
  - constructor 1.
  - reflexivity.
  - repeat constructor; discriminate.
Defined.

(** X13.  After unmount nothing is applied: whatever the loads do, when
    the body resumes with [cancelled] set it performs no [setChunks] and no
    [setLoading]; at most it logs the failure, and the state is left as it
    is. *)
Theorem load_after_unmount (BASE_URL : string)
    (loadAudioDuration : string → Promise number) (es : list Effect)
    (app : App) :
  loadDurations BASE_URL loadAudioDuration true = Some es →
  (es = [] ∨ es = [ConsoleError "Error loading audio durations:"])
  ∧ (∀ e, e ∈ es → isSetLoading e = false ∧ ∀ value, e ≠ SetChunks value)
  ∧ runEffects es app = app.
Proof.
  unfold loadDurations.
  destruct (Promise_all _) as [loaded| |]; [| |done]; intros [= <-].
  - split; [by left|]. split; [by intros e ?%elem_of_nil|done].
  - split; [by right|]. split; [|by destruct app].
    by intros e ->%list_elem_of_singleton.
Qed.

Lemma load_after_unmount_witness :
  runEffects [ConsoleError "Error loading audio durations:"] sampleLoaded
  = sampleLoaded.
Proof.
  apply (load_after_unmount "" sampleFailingLoad).
  reflexivity.
Defined.

(** ** Tick interval and zoom *)

Lemma candidates_bounded (c : number) : c ∈ candidates → c ≤ int 300.
Proof.
  unfold candidates. rewrite !elem_of_cons, elem_of_nil.
  intros H. repeat destruct H as [->|H]; try done; by_compute.
Qed.

(** X14.  Zooming in never makes the ticks sparser: for any minimum gap,
    a larger zoom factor gives a tick interval that is smaller or the
    same. *)
Theorem chooseTickInterval_antitone (p p' minPixelGap : number) :
  p ≤ p' →
  chooseTickInterval p' minPixelGap ≤ chooseTickInterval p minPixelGap.
Proof.
  intros Hp. unfold chooseTickInterval at 2. unfold chooseTickIntervalFrom.
  destruct (firstFit candidates p minPixelGap) as [c|] eqn:Hfit.
  - pose proof Hfit as (before & after & Hcs & Hc & _)%firstFit_Some.
    assert (c ∈ candidates) as Hin by (rewrite Hcs; set_solver).
    assert (fits p' minPixelGap c) as Hc'.
    { unfold fits in *. apply Qcle_trans with (c * p); [done|].
      apply Qcmult_le_mono_nonneg_l; [|done].
      by apply Qclt_le_weak, candidates_positive. }
    unfold chooseTickInterval, chooseTickIntervalFrom.
    destruct (firstFit candidates p' minPixelGap) as [c'|] eqn:Hfit'.
    + eapply firstFit_least; eauto using candidates_ascending.
    + apply firstFit_None in Hfit'. rewrite Forall_forall in Hfit'.
      by destruct (Hfit' c Hin).
  - replace (default 0 (candidates !! (length candidates - 1)%nat))
      with (int 300) by by_compute.
    apply candidates_bounded, chooseTickInterval_in.
Qed.

Lemma chooseTickInterval_antitone_witness :
  chooseTickInterval (int 150) defaultMinPixelGap
  ≤ chooseTickInterval (int 20) defaultMinPixelGap.
Proof.
  apply (chooseTickInterval_antitone (int 20) (int 150)). by_compute.
Defined.

(** X15.  Over the zoom range of the slider, 20 to 150 pixels per second,
    the interval chosen for the default minimum gap is one of 0.5, 1, 2
    and 5 seconds, and neighbouring ticks are at least 60 and less than
    150 pixels apart. *)
Theorem tick_spacing_in_zoom_range (p : number) :
  MIN_PIXELS_PER_SECOND ≤ p ≤ MAX_PIXELS_PER_SECOND →
  let interval := chooseTickInterval p defaultMinPixelGap in
  interval ∈ [frac 1 2; int 1; int 2; int 5]
  ∧ int 60 ≤ interval * p
  ∧ interval * p < int 150.
Proof.
  intros [Hmin Hmax] interval. subst interval.
  unfold chooseTickInterval, chooseTickIntervalFrom, candidates,
    defaultMinPixelGap, MIN_PIXELS_PER_SECOND, MAX_PIXELS_PER_SECOND in *.
  cbn [firstFit].
  destruct (decide (int 60 ≤ frac 1 2 * p)) as [H1|H1];
    [|destruct (decide (int 60 ≤ int 1 * p)) as [H2|H2];
      [|destruct (decide (int 60 ≤ int 2 * p)) as [H3|H3];
        [|destruct (decide (int 60 ≤ int 5 * p)) as [H4|H4]]]].
  - split; [set_solver|]. split; [done|]. qc2q. lra.
  - split; [set_solver|]. split; [done|].
    apply Qcnot_le_lt in H1. qc2q. lra.
  - split; [set_solver|]. split; [done|].
    apply Qcnot_le_lt in H2. qc2q. lra.
  - split; [set_solver|]. split; [done|].
    apply Qcnot_le_lt in H3. qc2q. lra.
  - destruct H4. qc2q. lra.
Qed.

Lemma tick_spacing_in_zoom_range_witness :
  int 60 ≤ chooseTickInterval (int 20) defaultMinPixelGap * int 20.
Proof.
  apply (tick_spacing_in_zoom_range (int 20)). split; by_compute.
Defined.

(** ** Shape of the tick list *)

Lemma Qc_div_lt (a b c : Qc) : 0 < c → b / c < a ↔ b < a * c.
Proof. intros Hc. by rewrite !Qclt_nge, Qc_le_div. Qed.

Lemma floor_half (k : Z) : Math_floor (int k / int 2) = (k `div` 2)%Z.
Proof.
  assert (0 < int 2) as H2 by by_compute.
  apply floor_unique.
  - apply Qc_le_div; [done|]. unfold int.
    rewrite <-Z2Qc_inj_mul, <-Z2Qc_inj_le.
    pose proof (Z.mul_div_le k 2). lia.
  - apply Qc_div_lt; [done|]. unfold int.
    rewrite <-Z2Qc_inj_mul, <-Z2Qc_inj_lt.
    pose proof (Z.mul_succ_div_gt k 2). lia.
Qed.

(** The remainder of the [k]-th multiple of the interval by twice the
    interval is 0 or one interval, as [k] is even or odd. *)
Lemma specMod_multiple (i : number) (k : Z) :
  0 < i → specMod (int k * i) (int 2 * i) = int (k `mod` 2) * i.
Proof.
  intros Hi. pose proof (Qc_lt_neq i Hi) as Hi0.
  assert (int 2 ≠ 0) as H2 by by_compute.
  unfold specMod.
  replace (int k * i / (int 2 * i)) with (int k / int 2)
    by (unfold number in *; by field).
  rewrite floor_half.
  rewrite (Z.mod_eq k 2) by lia. unfold int.
  rewrite Z2Qc_inj_sub, Z2Qc_inj_mul. unfold number in *. ring.
Qed.

Lemma specTick_major (p i : number) (k : nat) :
  0 < i → isMajor (specTick p i k) = Nat.even k.
Proof.
  intros Hi. pose proof (Qc_lt_neq i Hi) as Hi0.
  unfold specTick. cbn [isMajor]. rewrite specMod_multiple by done.
  assert (int (Z.of_nat k `mod` 2) = 0 ↔ Nat.even k = true) as Heven.
  { unfold int. rewrite <-Z2Qc_inj_0, Z2Qc_inj_iff.
    rewrite Nat.even_spec. unfold Nat.Even. split.
    - intros Hmod. exists (Z.to_nat (Z.of_nat k `div` 2)).
      pose proof (Z.div_mod (Z.of_nat k) 2).
      pose proof (Z.div_pos (Z.of_nat k) 2). lia.
    - intros [m ->]. rewrite Nat2Z.inj_mul, Z.mul_comm.
      apply Z_mod_mult. }
  destruct (Nat.even k) eqn:Hk.
  - apply bool_decide_eq_true. right.
    rewrite (proj2 Heven eq_refl). apply Qcmult_0_l.
  - apply bool_decide_eq_false. intros [Hzero|Hzero].
    + apply Qcmult_integral in Hzero as [Hzero|?]; [|done].
      destruct k as [|k]; [done|].
      revert Hzero. unfold int. rewrite <-Z2Qc_inj_0, Z2Qc_inj_iff. lia.
    + apply Qcmult_integral in Hzero as [Hzero|?]; [|done].
      apply Heven in Hzero. congruence.
Qed.

Lemma tickList_lookup (p i : number) (n k : nat) (tick : Tick) :
  map (specTick p i) (seq 0 n) !! k = Some tick →
  (k < n)%nat ∧ tick = specTick p i k.
Proof.
  rewrite list_lookup_fmap. intros Hk.
  destruct (seq 0 n !! k) as [k'|] eqn:Hseq; [|done].
  apply lookup_seq in Hseq as [-> Hlt]. simpl in Hk.
  split; [done|congruence].
Qed.

(** X16.  Major and minor ticks alternate: whenever the ruler computation
    returns, the tick at position [k] of its list (counting from 0) is
    major exactly when [k] is even, so the list starts with a major tick
    at time 0 and every second tick carries a label. *)
Theorem ticks_major_alternate (chunks : list AudioChunkData) (p : number) :
  0 < p →
  ∃ n : nat, ∀ fuel, (n < fuel)%nat →
    ∃ r, rulerMemo fuel chunks p = Some r
         ∧ length (ticks r) = n
         ∧ ∀ (k : nat) (tick : Tick),
             ticks r !! k = Some tick → isMajor tick = Nat.even k.
Proof.
  intros _. eexists. intros fuel Hfuel.
  eexists. split; [by apply rulerMemo_total|]. cbn [ticks].
  split; [by rewrite length_map, length_seq|].
  intros k tick [_ ->]%tickList_lookup.
  apply specTick_major, chooseTickInterval_positive.
Qed.

Lemma ticks_major_alternate_witness :
  ∃ n : nat, ∀ fuel, (n < fuel)%nat →
    ∃ r, rulerMemo fuel demo5 (int 50) = Some r
         ∧ length (ticks r) = n
         ∧ ∀ (k : nat) (tick : Tick),
             ticks r !! k = Some tick → isMajor tick = Nat.even k.
Proof.
  apply (ticks_major_alternate demo5 (int 50)). by_compute.
Defined.

(** X17.  Geometry of the ticks.  For a zoom factor [p > 0] the ruler
    computation returns (given fuel above the number of ticks) a list in
    which the tick at position [k] has time [k * interval] and pixel
    position [k * (interval * p)], so neighbouring ticks are
    [interval * p] pixels apart; every tick lies between 0 and the ruler
    width, and the ruler ends less than one tick spacing after the last
    tick.  When the content width is not negative there are at least
    four ticks. *)
Theorem ticks_geometry (chunks : list AudioChunkData) (p : number) :
  0 < p →
  let interval := chooseTickInterval p defaultMinPixelGap in
  ∃ n : nat,
    (0 ≤ contentWidth chunks p → (4 ≤ n)%nat)
    ∧ ∀ fuel, (n < fuel)%nat →
        ∃ r, rulerMemo fuel chunks p = Some r
             ∧ length (ticks r) = n
             ∧ rulerWidth r < int (Z.of_nat n) * (interval * p)
             ∧ ∀ (k : nat) (tick : Tick),
                 ticks r !! k = Some tick →
                 time tick = int (Z.of_nat k) * interval
                 ∧ px tick = int (Z.of_nat k) * (interval * p)
                 ∧ 0 ≤ px tick ∧ px tick ≤ rulerWidth r.
Proof.
  intros Hp interval.
  assert (0 < interval) as Hi by apply chooseTickInterval_positive.
  set (limit := extendedSeconds chunks p).
  exists (tickCount interval limit). split.
  - intros Hcontent.
    cut (3 < tickCount interval limit)%nat; [lia|].
    apply tickCount_spec; [done|].
    unfold limit, extendedSeconds, contentSeconds, EXTRA_TICKS.
    fold interval.
    rewrite <-(Qcplus_0_l (int (Z.of_nat 3) * interval)).
    rewrite (Qcmult_comm interval (int 3)).
    apply Qcplus_le_compat; [|apply Qcle_refl].
    apply Qc_le_div; [done|]. by rewrite Qcmult_0_l.
  - intros fuel Hfuel. eexists.
    split; [by apply rulerMemo_total|]. cbn [ticks rulerWidth].
    split; [by rewrite length_map, length_seq|]. split.
    + unfold extendedWidth. fold limit. rewrite Qcmult_assoc.
      apply Qcmult_lt_mono_pos_r; [done|].
      apply Qcnot_le_lt. intros Hle%tickCount_spec; [lia|done].
    + intros k tick [Hk ->]%tickList_lookup.
      unfold specTick. cbn [time px].
      split; [done|]. split; [by rewrite Qcmult_assoc|]. split.
      * apply Qcmult_nonneg_nonneg; [|by apply Qclt_le_weak].
        apply Qcmult_nonneg_nonneg; [apply int_nonneg|].
        by apply Qclt_le_weak.
      * unfold extendedWidth. fold limit.
        apply Qcmult_le_mono_nonneg_r; [by apply Qclt_le_weak|].
        by apply tickCount_spec.
Qed.

Lemma ticks_geometry_witness :
  ∃ n : nat,
    (0 ≤ contentWidth demo5 (int 50) → (4 ≤ n)%nat)
    ∧ ∀ fuel, (n < fuel)%nat →
        ∃ r, rulerMemo fuel demo5 (int 50) = Some r ∧ length (ticks r) = n.
Proof.
  destruct (ticks_geometry demo5 (int 50)) as (n & Hfour & Hrun).
  - by_compute.
  - exists n. split; [exact Hfour|].
    intros fuel Hfuel. destruct (Hrun fuel Hfuel) as (r & Hr & Hlen & _).
    exists r. split; [exact Hr|exact Hlen].
Defined.


(** ** Widths: ruler content, total duration, rendered row *)




Lemma Math_max_60 (w : number) :
  Math_max w (int 60) = w + Math_max 0 (int 60 - w).
Proof.
  unfold Math_max.
  destruct (decide (w < int 60)) as [Hlt|Hge].
  - rewrite decide_True by (qc2q; lra). qc2q. ring.
  - rewrite decide_False by (apply Qcnot_lt_le in Hge; qc2q; lra).
    by rewrite Qcplus_0_r.
Qed.

Lemma TimelineGap_width_nonneg (g : number) :
  0 ≤ g → TimelineGap_width g = g.
Proof.
  intros Hg. unfold TimelineGap_width. case_decide as Hle; [|done].
  by apply Qcle_antisym.
Qed.

Lemma rowWidthFrom_shortfall (i : nat) chunks (p : number) :
  (0 < i)%nat →
  Forall (λ c, 0 ≤ gapBefore c) chunks →
  rowWidthFrom i chunks p = specChunkRowWidth chunks p + shortfall chunks p.
Proof.
  intros Hi Hall. revert i Hi.
  induction Hall as [|c chunks Hgap _ IH]; intros i Hi.
  - simpl. by rewrite Qcplus_0_r.
  - cbn [rowWidthFrom specChunkRowWidth shortfall foldr].
    fold (specChunkRowWidth chunks p). fold (shortfall chunks p).
    rewrite IH by lia. rewrite decide_True by done.
    rewrite TimelineGap_width_nonneg by done.
    unfold AudioChunk_width. rewrite Math_max_60.
    unfold number in *. ring.
Qed.

Lemma shortfall_nonneg chunks (p : number) : 0 ≤ shortfall chunks p.
Proof.
  induction chunks as [|c chunks IH]; [apply Qcle_refl|].
  cbn [shortfall foldr]. fold (shortfall chunks p).
  apply Qcplus_nonneg_nonneg; [|done].
  by destruct (Math_max_spec 0 (int 60 - durationSeconds c * p)) as (? & _).
Qed.

Lemma shortfall_zero chunks (p : number) :
  shortfall chunks p = 0
  ↔ Forall (λ c, int 60 ≤ durationSeconds c * p) chunks.
Proof.
  induction chunks as [|c chunks IH]; [by split; [constructor|]|].
  cbn [shortfall foldr]. fold (shortfall chunks p).
  pose proof (shortfall_nonneg chunks p) as Hrest.
  destruct (Math_max_spec 0 (int 60 - durationSeconds c * p))
    as (Hzero & Hneed & Hwhich).
  set (extra := Math_max 0 (int 60 - durationSeconds c * p)) in *.
  split.
  - intros Hsum.
    assert (extra = 0 ∧ shortfall chunks p = 0) as [Hextra Hrest0].
    { clearbody extra. split; apply Qcle_antisym; try done;
        revert Hsum Hzero Hrest; qc2q; lra. }
    constructor; [|by apply IH].
    rewrite Hextra in Hneed. revert Hneed. qc2q. lra.
  - intros Hwide. inversion_clear Hwide as [|? ? Hc Hrest'].
    rewrite (proj2 IH Hrest'), Qcplus_0_r.
    destruct Hwhich as [|Heq]; [done|].
    apply Qcle_antisym; [|done]. rewrite Heq. revert Hc. qc2q. lra.
Qed.

(** X19.  Ruler against rendered row.  When no gap is negative and the
    first chunk has no gap, the rendered chunk row is as wide as the
    content width of the ruler plus what the cards narrower than 60 px
    are widened by; so the row is never narrower than the ruler's content,
    and the two agree exactly when every card is at least 60 px wide. *)
Theorem rendered_row_vs_content (chunks : list AudioChunkData) (p : number) :
  (∀ first, head chunks = Some first → gapBefore first = 0) →
  Forall (λ c, 0 ≤ gapBefore c) chunks →
  renderedRowWidth chunks p = contentWidth chunks p + shortfall chunks p
  ∧ contentWidth chunks p ≤ renderedRowWidth chunks p
  ∧ (renderedRowWidth chunks p = contentWidth chunks p
     ↔ Forall (λ c, int 60 ≤ durationSeconds c * p) chunks).
Proof.
  intros Hfirst Hgaps.
  assert (renderedRowWidth chunks p
          = contentWidth chunks p + shortfall chunks p) as Hrow.
  { rewrite contentWidth_spec. unfold renderedRowWidth.
    destruct Hgaps as [|c chunks Hgap Hgaps]; [by rewrite Qcplus_0_r|].
    cbn [rowWidthFrom specChunkRowWidth shortfall foldr].
    fold (specChunkRowWidth chunks p). fold (shortfall chunks p).
    rewrite rowWidthFrom_shortfall by (done || lia).
    rewrite decide_False by lia. rewrite (Hfirst c eq_refl).
    unfold AudioChunk_width. rewrite Math_max_60.
    unfold number in *. ring. }
  pose proof (shortfall_nonneg chunks p) as Hnonneg.
  split; [done|]. split.
  - rewrite Hrow. revert Hnonneg. qc2q. lra.
  - rewrite <-shortfall_zero, Hrow. split.
    + intros Heq. revert Heq. qc2q. lra.
    + intros ->. apply Qcplus_0_r.
Qed.

Lemma rendered_row_vs_content_witness :
  renderedRowWidth demoGapped (int 50)
  = contentWidth demoGapped (int 50) + shortfall demoGapped (int 50).
Proof.
  apply (rendered_row_vs_content demoGapped (int 50)).
  - intros first [= <-]. reflexivity.
  - repeat constructor; by_compute.
Defined.

(** ** Labels and whole seconds *)

Lemma whole_minutes_seconds (s : number) :
  0 ≤ s →
  Math_floor (s / int 60) = (Math_floor s `div` 60)%Z
  ∧ Math_floor (specMod s (int 60)) = (Math_floor s `mod` 60)%Z.
Proof.
  intros Hs.
  destruct (minutes_seconds s Hs) as (_ & Hmod & Hlo & Hhi).
  destruct (floor_bounds (specMod s (int 60))) as [Hslo Hshi].
  destruct (floor_bounds s) as [Hwlo Hwhi].
  set (mins := Math_floor (s / int 60)) in *.
  set (secs := Math_floor (specMod s (int 60))) in *.
  set (whole := Math_floor s) in *.
  clearbody mins secs whole.
  rewrite Hmod in Hslo, Hshi. clear Hmod.
  unfold int in *. rewrite ?Z2Qc_inj_add, ?Z2Qc_inj_mul in *.
  assert (60 * mins ≤ whole < 60 * mins + 60)%Z as Hwhole.
  { split.
    - apply Z.lt_succ_r, Z2Qc_inj_lt. unfold Z.succ.
      rewrite Z2Qc_inj_add, Z2Qc_inj_mul. qc2q. lra.
    - apply Z2Qc_inj_lt. rewrite Z2Qc_inj_add, Z2Qc_inj_mul. qc2q. lra. }
  assert (secs = whole - 60 * mins)%Z as Hsecs.
  { apply Z.le_antisymm.
    - apply Z.lt_succ_r, Z2Qc_inj_lt. unfold Z.succ.
      rewrite Z2Qc_inj_add, Z2Qc_inj_sub, Z2Qc_inj_mul. qc2q. lra.
    - apply Z.lt_succ_r, Z2Qc_inj_lt. unfold Z.succ.
      rewrite Z2Qc_inj_add, Z2Qc_inj_sub, Z2Qc_inj_mul. qc2q. lra. }
  split.
  - apply (Z.div_unique whole 60 mins (whole - 60 * mins)); lia.
  - rewrite Hsecs.
    apply (Z.mod_unique whole 60 mins (whole - 60 * mins)); lia.
Qed.

Lemma formatTime_whole (s : number) :
  0 ≤ s →
  formatTime s
  = pretty (Math_floor s `div` 60)%Z
    +:+ ":" +:+ specTwoDigits (Math_floor s `mod` 60)%Z.
Proof.
  intros Hs. unfold formatTime.
  destruct (minutes_seconds s Hs) as (-> & _).
  destruct (whole_minutes_seconds s Hs) as [-> ->].
  unfold toString at 1. rewrite padStart_two_digits; [done|].
  pose proof (Z.mod_pos_bound (Math_floor s) 60). lia.
Qed.

Lemma string_length_app (a b : string) :
  String.length (a +:+ b) = (String.length a + String.length b)%nat.
Proof. induction a as [|c a IH]; simpl; [done|]. by rewrite IH. Qed.

(** Equal concatenations with tails of equal length have equal parts. *)
Lemma string_app_inj_tail (a a' b b' : string) :
  String.length b = String.length b' →
  a +:+ b = a' +:+ b' → a = a' ∧ b = b'.
Proof.
  intros Hlen. revert a'.
  induction a as [|c a IH]; intros [|c' a']; simpl; intros Heq.
  - done.
  - apply (f_equal String.length) in Heq.
    rewrite !string_length_app in Heq. simpl in Heq. lia.
  - apply (f_equal String.length) in Heq.
    rewrite !string_length_app in Heq. simpl in Heq. lia.
  - injection Heq as -> Heq. by destruct (IH a' Heq) as [-> ->].
Qed.

Lemma specTwoDigits_inj (m n : Z) :
  (0 ≤ m < 60)%Z → (0 ≤ n < 60)%Z →
  specTwoDigits m = specTwoDigits n → m = n.
Proof.
  intros Hm Hn.
  assert (Forall (λ a : nat, Forall (λ b : nat,
            specTwoDigits (Z.of_nat a) = specTwoDigits (Z.of_nat b) → a = b)
            (seq 0 60)) (seq 0 60)) as Hall by by_compute.
  rewrite Forall_forall in Hall.
  specialize (Hall (Z.to_nat m)). rewrite Forall_forall in Hall.
  specialize (Hall ltac:(apply elem_of_seq; lia) (Z.to_nat n)
                   ltac:(apply elem_of_seq; lia)).
  rewrite !Z2Nat.id in Hall by lia. intros Heq%Hall. lia.
Qed.

(** X20.  Two non-negative times get the same label exactly when they lie
    in the same whole second: the label determines [floor(seconds)] and
    is determined by it. *)
Theorem formatTime_same_label (s s' : number) :
  0 ≤ s → 0 ≤ s' →
  formatTime s = formatTime s' ↔ Math_floor s = Math_floor s'.
Proof.
  intros Hs Hs'. rewrite !formatTime_whole by done.
  set (w := Math_floor s). set (w' := Math_floor s').
  split; [|by intros ->].
  intros Heq.
  pose proof (Z.mod_pos_bound w 60) as Hw.
  pose proof (Z.mod_pos_bound w' 60) as Hw'.
  apply string_app_inj_tail in Heq as [Hmins Hsecs]; [|done].
  apply pretty_Z_inj in Hmins.
  apply string_app_inj_tail in Hsecs as [_ Hsecs]; [|done].
  apply specTwoDigits_inj in Hsecs; [|lia..].
  rewrite (Z.div_mod w 60), (Z.div_mod w' 60) by lia.
  by rewrite Hmins, Hsecs.
Qed.

Lemma formatTime_same_label_witness :
  formatTime (frac 1259 10) = formatTime (int 125)
  ↔ Math_floor (frac 1259 10) = Math_floor (int 125).
Proof.
  apply (formatTime_same_label (frac 1259 10) (int 125)); by_compute.
Defined.


(** ** The highlighted chunk *)

Section Highlight.
Variable BASE_URL : string.
Variable loadAudioDuration : string → Promise number.

Lemma sessionOnTimeline_step (app app' : App) :
  step BASE_URL loadAudioDuration app app' →
  firstChunkFixed app →
  sessionOnTimeline app → sessionOnTimeline app'.
Proof.
  intros Hstep [Hloading _] Hsession. unfold sessionOnTimeline in *.
  destruct Hstep as [app es Hl Hes|app cid e prevented s' Hdown|app x _
                    |app _|app|app value Hvalue|app el deltaY _|app el Hl];
    try done.
  - destruct (Hloading Hl) as [_ Hnone].
    destruct (loadDurations_shape _ _ _ Hes) as (msgs & value & -> & Hmsgs).
    rewrite runEffects_load by done. simpl. by rewrite Hnone.
  - destruct (onChunkMouseDown_inv _ _ _ _ _ Hdown)
      as [->|(_ & n & chunk & _ & Hchunk & Hid & _ & ->)]; [done|].
    cbn [drag with_drag].
    destruct (pressed_fields cid e chunk (drag app)) as (-> & -> & _).
    intros session [= <-]. simpl. rewrite <-Hid.
    apply list_elem_of_fmap. exists chunk. split; [done|].
    by eapply list_elem_of_lookup_2.
  - cbn [drag with_drag].
    destruct (dragRef (drag app)) as [session|] eqn:Hheld.
    + destruct (handleMouseMove_chunks _ _ x Hheld) as [-> ->].
      intros session' [= <-].
      destruct (regap_identity_fields (chunkId session)
                  (Math_max 0 (initialGapBefore session
                               + (x - startMouseX session)))
                  (chunks (drag app))) as (-> & _).
      by apply Hsession.
    + unfold handleMouseMove. rewrite Hheld. intros session.
      by rewrite Hheld.
  - cbn [drag with_drag].
    destruct (handleMouseUp_frame (drag app)) as [_ ->]. done.
  - cbn [drag with_drag].
    by destruct (runFrame_frame (drag app)) as [-> ->].
Qed.

Lemma reachable_sessionOnTimeline (app : App) :
  reachable BASE_URL loadAudioDuration app → sessionOnTimeline app.
Proof.
  unfold reachable. intros Hrun.
  eapply (rtc_ind_r (λ a, reachable BASE_URL loadAudioDuration a
                          ∧ sessionOnTimeline a)); [| |exact Hrun].
  - split; [apply rtc_refl|done].
  - intros before after _ Hstep [Hreach Hsession]. split.
    + by eapply rtc_r.
    + eapply sessionOnTimeline_step; [done| |done].
      by apply (reachable_firstChunkFixed BASE_URL loadAudioDuration).
Qed.
End Highlight.

(** X21.  In every state the component can reach while a drag session is
    shown, exactly one chunk card is drawn as being dragged: there is one
    position whose chunk has the session's id, that position is not the
    first, and [isDragging] holds for the chunk there and for no chunk at
    any other position.  With no session shown no card is drawn as being
    dragged. *)
Theorem one_chunk_highlighted (BASE_URL : string)
    (loadAudioDuration : string → Promise number) (app : App) :
  reachable BASE_URL loadAudioDuration app →
  let cs := chunks (drag app) in
  (∀ session, dragState (drag app) = Some session →
     ∃ (i : nat) (c : AudioChunkData),
       (0 < i)%nat ∧ cs !! i = Some c ∧ id c = chunkId session
       ∧ ∀ (j : nat) (c' : AudioChunkData),
           cs !! j = Some c' →
           isDragging (dragState (drag app)) c' = bool_decide (j = i))
  ∧ (dragState (drag app) = None →
     ∀ c, isDragging (dragState (drag app)) c = false).
Proof.
  intros Hrun cs.
  pose proof (reachable_controllerConsistent _ _ _ Hrun) as (Hmirror & _).
  pose proof (reachable_sessionOnTimeline _ _ _ Hrun) as Hon.
  pose proof (reachable_firstChunkFixed _ _ _ Hrun) as [_ Hfirst].
  pose proof (reachable_timelineShape _ _ _ Hrun)
    as (Hloading & Hloaded & _).
  assert (NoDup (map id cs)) as Hnodup.
  { destruct (loading app) eqn:Hl.
    - subst cs. rewrite Hloading by done. constructor.
    - destruct (Hloaded eq_refl) as (Hid & _). subst cs. rewrite Hid.
      by_compute. }
  split; [|by intros ->].
  intros session Hshown. rewrite Hshown. rewrite Hmirror in Hshown.
  pose proof (Hon _ Hshown) as Hin.
  apply list_elem_of_fmap in Hin as (c & Hid & Hc).
  apply list_elem_of_lookup_1 in Hc as [i Hi].
  exists i, c. split; [|split; [done|split; [by symmetry|]]].
  - destruct i as [|i]; [|lia].
    rewrite <-head_lookup in Hi.
    destruct (Hfirst c Hi) as [_ Hother].
    by destruct (Hother session Hshown Hid).
  - intros j c' Hj. simpl. unfold cs in *.
    destruct (decide (j = i)) as [->|Hne].
    + rewrite (bool_decide_eq_true_2 (i = i)) by done.
      apply bool_decide_eq_true. congruence.
    + rewrite (bool_decide_eq_false_2 (j = i)) by done.
      apply bool_decide_eq_false. intros Hsame. apply Hne.
      eapply (NoDup_id_elsewhere cs i c Hnodup Hi j c' Hj). congruence.
Qed.

Lemma one_chunk_highlighted_witness :
  reachable "" sampleLoad sampleMoved
  ∧ ∃ (i : nat) (c : AudioChunkData),
      (0 < i)%nat ∧ chunks (drag sampleMoved) !! i = Some c ∧ id c = "b".
Proof.
  split; [exact sampleMoved_reachable|].
  destruct (one_chunk_highlighted "" sampleLoad sampleMoved
              sampleMoved_reachable) as [Hshown _].
  destruct (Hshown (mkDrag "b" (int 300) 0) eq_refl)
    as (i & c & Hi & Hc & Hid & _).
  exists i, c. split; [exact Hi|]. split; [exact Hc|exact Hid].
Defined.
